(** * yrhr: the map page and its legend

    A shallow embedding of the two page scripts of the repository: the map
    page with a legend (fetch handler and [buildLegendFromData]) and
    [viz/map.js], the same page without a legend.

    The host objects the scripts only call into are kept abstract where the
    scripts cannot see inside them:
    - [String.prototype.localeCompare] is a parameter [localeCompare]; the
      language standard promises a consistent comparator, stated here as the
      class [ConsistentComparator];
    - Leaflet's [fitBounds] is a parameter of the fetch handler.

    Everything the scripts do themselves (the in-place sort of
    [data.features], the [Map] built from it, the markup of the legend, the
    promise chain) is written out. *)

From Stdlib Require Import ZArith QArith Ascii Sorted Permutation.
From stdpp Require Import base list gmap strings sorting.

Local Open Scope Z_scope.

(** ** Data model *)

(** A position: GeoJSON coordinates are numbers that the scripts never compute
    with, they are handed to Leaflet as they are. *)
Record LatLng := { lat : Q; lng : Q }.

(** [feature.properties], with the two fields the scripts read. *)
Record Properties := { label : string; color : string }.

(** A point feature of the collection. *)
Record Feature := { geometry : LatLng; properties : Properties }.

(** Arrays are objects: a variable holds a reference into the store. *)
Definition loc := nat.

(** The parsed document: [data.features] refers to an array of features. *)
Record FeatureCollection := { features : loc }.

(** ** Host functions used by [buildLegendFromData] *)

(** *** [Array.prototype.sort]

    The standard asks for a stable sort driven by the sign of
    [comparefn x y]: negative puts [x] first, positive puts [y] first, zero
    keeps the order the two had. Insertion from the right end is the
    simplest such sort; [sort_elements_unique] below shows that, for a
    consistent comparator, every stable sort returns this very list. *)
Fixpoint sort_insert {A} (comparefn : A -> A -> Z) (x : A) (l : list A) : list A :=
  match l with
  | [] => [x]
  | y :: l' =>
      if comparefn x y <=? 0 then x :: y :: l' else y :: sort_insert comparefn x l'
  end.

Definition sort_elements {A} (comparefn : A -> A -> Z) (l : list A) : list A :=
  foldr (sort_insert comparefn) [] l.

(** *** [Map]

    A [Map] iterates in insertion order; [set] on a key that is present
    replaces the value where the key stands, [set] on a new key appends. *)
Abbreviation JsMap := (list (string * string)).

Definition Map_new : JsMap := [].

Fixpoint Map_set (key value : string) (m : JsMap) : JsMap :=
  match m with
  | [] => [(key, value)]
  | (k, v) :: m' =>
      if decide (k = key) then (k, value) :: m' else (k, v) :: Map_set key value m'
  end.

Fixpoint Map_get (key : string) (m : JsMap) : option string :=
  match m with
  | [] => None
  | (k, v) :: m' => if decide (k = key) then Some v else Map_get key m'
  end.

Definition Map_keys (m : JsMap) : list string := fst <$> m.

Definition Map_size (m : JsMap) : nat := length m.

(** *** [Array.from]

    Line 48 hands [Array.from] the method [mapLegend.entries] itself, not the
    iterator a call would return. A function object is not iterable, so
    [Array.from] treats it as array-like and reads its [length], the number of
    declared parameters; every index read gives [undefined]. *)
Inductive JsValue :=
  | JsUndefined
  | JsEntry (key value : string).

Inductive ArrayFromArgument :=
  | FunctionObject (declared_parameters : nat)
  | Iterator (items : list JsValue).

Definition Array_from (v : ArrayFromArgument) : list JsValue :=
  match v with
  | Iterator items => items
  | FunctionObject n => replicate n JsUndefined
  end.

(** The property [mapLegend.entries]: the method [Map.prototype.entries],
    which declares no parameter. *)
Definition Map_entries_method (m : JsMap) : ArrayFromArgument := FunctionObject 0.

(** What the call [mapLegend.entries()] would have given. *)
Definition Map_entries_call (m : JsMap) : ArrayFromArgument :=
  Iterator ((fun kv => JsEntry kv.1 kv.2) <$> m).

(** ** The page *)

Record View := { center : LatLng; zoom : Z }.

Record Tooltip := {
  content : string;
  permanent : bool;
  direction : string;
  offset : Z * Z
}.

Record CircleMarker := {
  latlng : LatLng;
  radius : Z;
  fillOpacity : Q;
  marker_color : string;
  marker_label : string;
  tooltip : option Tooltip
}.

Inductive Layer :=
  | TileLayer (urlTemplate attribution : string)
  | GeoJSON (markers : list CircleMarker).

(** A DOM element, as far as the scripts touch it. [innerHTML] is the markup
    text the script has assigned and appended. *)
Record Element := { className : string; innerHTML : string }.

(** A control that was added to the map: its corner and the element its
    [onAdd] returned. *)
Record Control := { position : string; container : Element }.

Record Page := {
  heap : gmap loc (list Feature);
  view : View;
  layers : list Layer;
  controls : list Control
}.

Definition set_heap (h : gmap loc (list Feature)) (p : Page) : Page :=
  {| heap := h; view := view p; layers := layers p; controls := controls p |}.

Definition set_view (v : View) (p : Page) : Page :=
  {| heap := heap p; view := v; layers := layers p; controls := controls p |}.

Definition add_layer (l : Layer) (p : Page) : Page :=
  {| heap := heap p; view := view p; layers := layers p ++ [l];
     controls := controls p |}.

Definition add_control (c : Control) (p : Page) : Page :=
  {| heap := heap p; view := view p; layers := layers p;
     controls := controls p ++ [c] |}.

(** ** Completions and the page monad *)

Inductive JsError :=
  | TypeError (message : string)
  | SyntaxError (message : string)
  | Error (message : string).

(** How a computation or a promise ends. *)
Inductive Settled (A : Type) :=
  | Fulfilled (value : A)
  | Rejected (reason : JsError).
Arguments Fulfilled {A} value.
Arguments Rejected {A} reason.

(** Script code runs on the page: it ends normally or throws, and what it did
    to the page before throwing stays done. *)
Definition M (A : Type) : Type := Page -> Settled A * Page.

Definition ret {A} (a : A) : M A := fun p => (Fulfilled a, p).

Definition throw {A} (e : JsError) : M A := fun p => (Rejected e, p).

Definition bind {A B} (m : M A) (k : A -> M B) : M B :=
  fun p =>
    match m p with
    | (Fulfilled a, p') => k a p'
    | (Rejected e, p') => (Rejected e, p')
    end.

Notation "x <- m ;; k" := (bind m (fun x => k))
  (at level 100, m at next level, right associativity).

Definition modify (f : Page -> Page) : M unit := fun p => (Fulfilled tt, f p).

(** Reading through an array reference. *)
Definition Array_read (a : loc) : M (list Feature) :=
  fun p =>
    match heap p !! a with
    | Some elements => (Fulfilled elements, p)
    | None => (Rejected (TypeError "not an array"), p)
    end.

(** [a.sort(comparefn)] sorts the array [a] refers to where it is and returns
    the same reference. *)
Definition Array_sort (comparefn : Feature -> Feature -> Z) (a : loc) : M loc :=
  fun p =>
    match heap p !! a with
    | Some elements =>
        (Fulfilled a, set_heap (<[a := sort_elements comparefn elements]> (heap p)) p)
    | None => (Rejected (TypeError "not an array"), p)
    end.

(** [a.forEach(callback)] visits the elements in index order; the callback
    works on an object [s] of the caller (here the [Map] being filled). *)
Definition Array_forEach {S} (a : loc) (callback : Feature -> S -> S) (s : S) : M S :=
  elements <- Array_read a ;;
  ret (foldl (fun s f => callback f s) s elements).

(** ** The legend builder (lines 35-69) *)

Definition quote : string := String "034"%char EmptyString.
Definition newline : string := String "010"%char EmptyString.
Definition indent16 : string := "                ".
Definition indent20 : string := "                    ".

(** Line 55: the heading. *)
Definition legend_heading : string := "<strong>Legend</strong><br>".

(** Lines 58-62: the template literal, with its two holes. *)
Definition legend_item (color name : string) : string :=
  newline +:+ indent16 +:+ "<div class=" +:+ quote +:+ "legend-item" +:+ quote +:+ ">"
  +:+ newline +:+ indent20 +:+ "<span class=" +:+ quote +:+ "legend-color" +:+ quote
  +:+ " style=" +:+ quote +:+ "background:" +:+ color +:+ quote +:+ "></span>"
  +:+ newline +:+ indent20 +:+ name
  +:+ newline +:+ indent16 +:+ "</div>".

Definition append_html (markup : string) (div : Element) : Element :=
  {| className := className div; innerHTML := innerHTML div +:+ markup |}.

(** Lines 53-66: [legend.onAdd]. [Map.prototype.forEach] calls back with the
    value first and the key second, in the iteration order of the map. *)
Definition legend_onAdd (mapLegend : JsMap) : Element :=
  let div := {| className := "legend"; innerHTML := legend_heading |} in
  foldl (fun div entry => append_html (legend_item entry.2 entry.1) div) div mapLegend.

(** The labels of the rows [legend.onAdd] emits, first row first. *)
Definition legend_rows (mapLegend : JsMap) : list string := Map_keys mapLegend.

(** Line 68: [legend.addTo(map)]; Leaflet calls [onAdd] and puts the element
    it returns into the corner the control names. *)
Definition Control_addTo (position : string) (onAdd : unit -> Element) : M Control :=
  fun p =>
    let c := {| position := position; container := onAdd tt |} in
    (Fulfilled c, add_control c p).

(** The bindings of the function body when it ends. The function itself
    returns [undefined]; the bindings are kept so that statements can speak
    of them. [Map_set_calls] lists the arguments of the calls of
    [mapLegend.set], first call first. *)
Record Bindings := {
  sortedFeatures : loc;
  Map_set_calls : list (string * string);
  mapLegend : JsMap;
  sortedLegend : list JsValue;
  legend : Control
}.

Section Legend.

(** [a.localeCompare(b)] of the host. *)
Variable localeCompare : string -> string -> Z.

(** Line 39: the comparator handed to [sort]. *)
Definition compareLabels (a b : Feature) : Z :=
  localeCompare (label (properties a)) (label (properties b)).

(** Lines 41-46: the callback of [sortedFeatures.forEach]. The map is
    threaded together with the record of the [set] calls made so far. *)
Definition setLegendEntry (f : Feature)
    (s : list (string * string) * JsMap) : list (string * string) * JsMap :=
  let key := label (properties f) in
  let value := color (properties f) in
  (s.1 ++ [(key, value)], Map_set key value s.2).

Definition buildLegendFromData (data : FeatureCollection) : M Bindings :=
  let mapLegend := Map_new in
  sortedFeatures <- Array_sort compareLabels (features data) ;;
  filled <- Array_forEach sortedFeatures setLegendEntry ([], mapLegend) ;;
  let mapLegend := filled.2 in
  let sortedLegend := Array_from (Map_entries_method mapLegend) in
  legend <- Control_addTo "bottomright" (fun _ => legend_onAdd mapLegend) ;;
  ret {| sortedFeatures := sortedFeatures;
         Map_set_calls := filled.1;
         mapLegend := mapLegend;
         sortedLegend := sortedLegend;
         legend := legend |}.

(** The same function with line 48 taken out. *)
Definition buildLegendFromData_without_sortedLegend
    (data : FeatureCollection) : M Control :=
  let mapLegend := Map_new in
  sortedFeatures <- Array_sort compareLabels (features data) ;;
  filled <- Array_forEach sortedFeatures setLegendEntry ([], mapLegend) ;;
  let mapLegend := filled.2 in
  Control_addTo "bottomright" (fun _ => legend_onAdd mapLegend).

End Legend.

(** ** Comparators *)

(** What the standard calls a consistent comparator, read through the sign
    of the result as [sort] does: swapping the arguments flips the sign, and
    "not after" is transitive. *)
Class ConsistentComparator {A} (cmp : A -> A -> Z) : Prop := {
  comparator_antisym a b : Z.sgn (cmp a b) = - Z.sgn (cmp b a);
  comparator_trans a b c : cmp a b <= 0 -> cmp b c <= 0 -> cmp a c <= 0
}.

(** [x] may stand before [y]. *)
Definition precedes {A} (cmp : A -> A -> Z) : relation A := fun x y => cmp x y <= 0.

(** [x] and [y] compare as equal. *)
Definition ties {A} (cmp : A -> A -> Z) (x y : A) : Prop := cmp x y = 0.

#[global] Instance precedes_dec {A} (cmp : A -> A -> Z) : RelDecision (precedes cmp).
Proof. intros x y. unfold precedes. apply _. Defined.

#[global] Instance ties_dec {A} (cmp : A -> A -> Z) : RelDecision (ties cmp).
Proof. intros x y. unfold ties. apply _. Defined.

(** Comparison of strings by their code units, a comparator to run the
    page with. *)
Definition codeUnitCompare (a b : string) : Z :=
  match String.compare a b with
  | Lt => -1
  | Eq => 0
  | Gt => 1
  end.

(** ** The page scripts *)

(** The response of [fetch], as far as the scripts use it: what [r.json()]
    settles to, the parsed feature array or the parse failure. *)
Record Response := { json : Settled (list Feature) }.

(** A new array object in the store. *)
Definition Array_alloc (elements : list Feature) : M loc :=
  fun p =>
    let a := fresh (dom (heap p)) in
    (Fulfilled a, set_heap (<[a := elements]> (heap p)) p).

(** [r.json()]: the parsed document is a new object. *)
Definition Response_json (r : Response) : M FeatureCollection :=
  match json r with
  | Fulfilled elements =>
      a <- Array_alloc elements ;;
      ret {| features := a |}
  | Rejected e => throw e
  end.

(** [promise.then(onFulfilled)], no rejection handler given: the new promise
    settles as [onFulfilled] does when [promise] fulfils (a throw inside
    rejects it), and rejects with the same reason when [promise] rejects. *)
Definition Promise_then {A B} (promise : M A) (onFulfilled : A -> M B) : M B :=
  bind promise onFulfilled.

(** Line 1: [L.map("map").setView([-37.81, 144.96], 13)]. *)
Definition default_view : View :=
  {| center := {| lat := -3781 # 100; lng := 14496 # 100 |}; zoom := 13 |}.

Definition L_map_setView (v : View) : Page :=
  {| heap := ∅; view := v; layers := []; controls := [] |}.

(** Lines 3-5. *)
Definition tiles : Layer :=
  TileLayer "https://{s}.tile.openstreetmap.org/{z}/{x}/{y}.png"
            "© OpenStreetMap contributors".

Definition Layer_addTo (l : Layer) : M unit := modify (add_layer l).

(** Lines 11-17: [pointToLayer], with the radius of the script at hand. *)
Definition pointToLayer (radius : Z) (feature : Feature) (latlng : LatLng) : CircleMarker :=
  {| latlng := latlng;
     radius := radius;
     fillOpacity := 8 # 10;
     marker_color := color (properties feature);
     marker_label := label (properties feature);
     tooltip := None |}.

(** Lines 19-25: [onEachFeature]. *)
Definition onEachFeature (feature : Feature) (layer : CircleMarker) : CircleMarker :=
  {| latlng := latlng layer;
     radius := radius layer;
     fillOpacity := fillOpacity layer;
     marker_color := marker_color layer;
     marker_label := marker_label layer;
     tooltip := Some {| content := label (properties feature);
                        permanent := false;
                        direction := "top";
                        offset := (0, -6) |} |}.

(** [L.geoJSON(data, options)]: one marker per feature, in array order. *)
Definition L_geoJSON (data : FeatureCollection) (radius : Z) : M Layer :=
  elements <- Array_read (features data) ;;
  ret (GeoJSON ((fun f => onEachFeature f (pointToLayer radius f (geometry f)))
                  <$> elements)).

(** [layer.getBounds()], given as the positions the bounds span. *)
Definition getBounds (l : Layer) : list LatLng :=
  match l with
  | GeoJSON markers => latlng <$> markers
  | TileLayer _ _ => []
  end.

Section Scripts.

Variable localeCompare : string -> string -> Z.

(** Leaflet's [map.fitBounds(bounds, {padding})] on the current view: the
    new view, or the error it throws. *)
Variable fitBounds : list LatLng -> Z * Z -> View -> Settled View.

Definition Map_fitBounds (bounds : list LatLng) (padding : Z * Z) : M unit :=
  fun p =>
    match fitBounds bounds padding (view p) with
    | Fulfilled v => (Fulfilled tt, set_view v p)
    | Rejected e => (Rejected e, p)
    end.

(** Lines 9-33 of the page with a legend. *)
Definition onData (data : FeatureCollection) : M unit :=
  layer <- L_geoJSON data 6 ;;
  _ <- Layer_addTo layer ;;
  _ <- Map_fitBounds (getBounds layer) (20, 20) ;;
  _ <- buildLegendFromData localeCompare data ;;
  ret tt.

(** The same handler over the builder without line 48. *)
Definition onData_without_sortedLegend (data : FeatureCollection) : M unit :=
  layer <- L_geoJSON data 6 ;;
  _ <- Layer_addTo layer ;;
  _ <- Map_fitBounds (getBounds layer) (20, 20) ;;
  _ <- buildLegendFromData_without_sortedLegend localeCompare data ;;
  ret tt.

(** Lines 9-31 of [viz/map.js]. *)
Definition onData_viz (data : FeatureCollection) : M unit :=
  layer <- L_geoJSON data 10 ;;
  _ <- Layer_addTo layer ;;
  _ <- Map_fitBounds (getBounds layer) (20, 20) ;;
  ret tt.

(** The page before the fetch settles: lines 1-5 of either script. *)
Definition page_loaded : Page := add_layer tiles (L_map_setView default_view).

(** The whole script, run to the end of the promise chain of lines 7-33:
    [fetch] is what the request settles to. The result is how the last
    promise of the chain settles, with the page as it then is. No handler
    is attached to that promise: when it rejects, nothing catches it. *)
Definition script (fetch : Settled Response) : Settled unit * Page :=
  Promise_then (Promise_then (fun p => (fetch, p)) Response_json) onData
    page_loaded.

Definition script_without_sortedLegend (fetch : Settled Response)
    : Settled unit * Page :=
  Promise_then (Promise_then (fun p => (fetch, p)) Response_json)
    onData_without_sortedLegend page_loaded.

Definition script_viz (fetch : Settled Response) : Settled unit * Page :=
  Promise_then (Promise_then (fun p => (fetch, p)) Response_json) onData_viz
    page_loaded.

End Scripts.

(** ** Vocabulary of the statements *)

(** The feature carries the label [x]. *)
Definition labelled (x : string) (f : Feature) : Prop := label (properties f) = x.

#[global] Instance labelled_dec x f : Decision (labelled x f).
Proof. unfold labelled. apply _. Defined.

(** The pair [mapLegend.set] is called with for a feature. *)
Definition legend_entry (f : Feature) : string * string :=
  (label (properties f), color (properties f)).

(** The entries a map holds under a key. *)
Definition Map_entries_of (key : string) (m : JsMap) : list (string * string) :=
  filter (fun entry => entry.1 = key) m.

(** What the [forEach] of lines 41-46 makes of a map. *)
Definition Map_set_each (l : list Feature) (m : JsMap) : JsMap :=
  foldl (fun m f => Map_set (label (properties f)) (color (properties f)) m) m l.

(** The markup [legend.onAdd] appends for a sequence of map entries. *)
Definition legend_markup (entries : JsMap) : string :=
  foldr (fun entry html => legend_item entry.2 entry.1 +:+ html) EmptyString entries.

(** ** Sample data

    The collections of the end-to-end scenarios, each on a page whose store
    holds the one array. *)
Definition melbourne : LatLng := {| lat := -3781 # 100; lng := 14496 # 100 |}.

Definition point (l c : string) : Feature :=
  {| geometry := melbourne; properties := {| label := l; color := c |} |}.

Definition page_with (fs : list Feature) : Page :=
  {| heap := {[ 0%nat := fs ]}; view := default_view; layers := [tiles]; controls := [] |}.

Definition data0 : FeatureCollection := {| features := 0%nat |}.

Definition features_BA : list Feature := [point "B" "#0f0"; point "A" "#f00"].
Definition features_AB : list Feature := [point "A" "#f00"; point "B" "#0f0"].
Definition features_XX : list Feature := [point "X" "#111"; point "X" "#222"].

(** The marker [L.geoJSON] makes of a feature: [pointToLayer] at the
    feature's position, then [onEachFeature]. *)
Definition marker_for (radius : Z) (f : Feature) : CircleMarker :=
  onEachFeature f (pointToLayer radius f (geometry f)).

(** A layer with the radius of its markers replaced. *)
Definition with_radius (r : Z) (l : Layer) : Layer :=
  match l with
  | TileLayer u a => TileLayer u a
  | GeoJSON markers =>
      GeoJSON ((fun m => {| latlng := latlng m; radius := r;
                            fillOpacity := fillOpacity m;
                            marker_color := marker_color m;
                            marker_label := marker_label m;
                            tooltip := tooltip m |}) <$> markers)
  end.

(** The labels of a feature array, in array order. *)
Definition labels (fs : list Feature) : list string :=
  (fun f => label (properties f)) <$> fs.

(** Two stand-ins for Leaflet's [fitBounds] to run the scripts with: one that
    returns with the view as it was, one that throws on the bounds of no
    marker. *)
Definition fitBounds_keep (bounds : list LatLng) (padding : Z * Z) (v : View)
    : Settled View := Fulfilled v.

Definition fitBounds_strict (bounds : list LatLng) (padding : Z * Z) (v : View)
    : Settled View :=
  match bounds with
  | [] => Rejected (Error "Bounds are not valid.")
  | _ :: _ => Fulfilled v
  end.

(** The comparator of line 39, on the pairs handed to [mapLegend.set]. *)
Definition compareEntries (localeCompare : string -> string -> Z)
    (e e' : string * string) : Z :=
  localeCompare e.1 e'.1.

(** * Properties *)

Section ComparatorFacts.
Context {A : Type} (cmp : A -> A -> Z) `{!ConsistentComparator cmp}.

Lemma comparator_refl a : cmp a a = 0.
Proof. pose proof (comparator_antisym a a). lia. Qed.

Lemma comparator_total a b : cmp a b <= 0 \/ cmp b a <= 0.
Proof. pose proof (comparator_antisym a b). lia. Qed.

Lemma comparator_gt_le a b : ~ cmp a b <= 0 -> cmp b a <= 0.
Proof. pose proof (comparator_antisym a b). lia. Qed.

Lemma ties_iff a b : ties cmp a b <-> precedes cmp a b /\ precedes cmp b a.
Proof.
  unfold ties, precedes. pose proof (comparator_antisym a b). lia.
Qed.

#[global] Instance precedes_refl : Reflexive (precedes cmp).
Proof. intros a. unfold precedes. rewrite comparator_refl. lia. Qed.

#[global] Instance precedes_trans : Transitive (precedes cmp).
Proof. intros a b c. apply comparator_trans. Qed.

#[global] Instance precedes_total : Total (precedes cmp).
Proof. intros a b. apply comparator_total. Qed.

#[global] Instance ties_equiv : Equivalence (ties cmp).
Proof.
  split.
  - intros a. apply comparator_refl.
  - intros a b. rewrite !ties_iff. tauto.
  - intros a b c. rewrite !ties_iff. intros [? ?] [? ?].
    split; etrans; eauto.
Qed.

(** A comparator on a field compares the records that carry it. *)
Lemma comparator_on {B} (key : B -> A) :
  ConsistentComparator (fun x y => cmp (key x) (key y)).
Proof.
  split.
  - intros x y. apply comparator_antisym.
  - intros x y z. apply comparator_trans.
Qed.
End ComparatorFacts.

#[global] Instance compareLabels_consistent localeCompare
  `{!ConsistentComparator localeCompare} :
  ConsistentComparator (compareLabels localeCompare).
Proof. apply (comparator_on localeCompare (fun f => label (properties f))). Qed.

#[global] Instance codeUnitCompare_consistent : ConsistentComparator codeUnitCompare.
Proof.
  assert (Hle : forall a b, codeUnitCompare a b <= 0 <-> String.le a b).
  { intros a b. unfold codeUnitCompare, String.le, String.leb.
    destruct (String.compare a b); simpl; intuition (try lia; try done). }
  split.
  - intros a b. unfold codeUnitCompare. rewrite (String.compare_antisym a b).
    destruct (String.compare b a); reflexivity.
  - intros a b c. rewrite !Hle. apply (transitivity (R := String.le)).
Qed.

(** ** The sort *)

Section SortFacts.
Context {A : Type} (cmp : A -> A -> Z).

Lemma sort_insert_Permutation x l : sort_insert cmp x l ≡ₚ x :: l.
Proof.
  induction l as [|y l IH]; simpl; [done|].
  case_match; [done|]. rewrite IH. apply Permutation_swap.
Qed.

Lemma sort_elements_Permutation l : sort_elements cmp l ≡ₚ l.
Proof.
  induction l as [|x l IH]; simpl; [done|].
  rewrite sort_insert_Permutation. by f_equiv.
Qed.

Lemma sort_elements_length l : length (sort_elements cmp l) = length l.
Proof. by rewrite sort_elements_Permutation. Qed.

(** Inserting in front of a list whose head may follow adds at the head. *)
Lemma sort_insert_HdRel x l :
  HdRel (precedes cmp) x l -> sort_insert cmp x l = x :: l.
Proof.
  destruct 1 as [|y l Hxy]; simpl; [done|].
  unfold precedes in Hxy. by rewrite (proj2 (Z.leb_le _ _) Hxy).
Qed.

(** A list in order is left as it is. *)
Lemma sort_elements_Sorted l :
  Sorted (precedes cmp) l -> sort_elements cmp l = l.
Proof.
  induction 1 as [|x l Hl IH Hx]; simpl; [done|].
  rewrite IH. by apply sort_insert_HdRel.
Qed.

(** Stability, in its general form: elements that [sort_insert] never
    moves past each other keep their order. *)
Lemma filter_sort_insert (P : A -> Prop) `{!forall x, Decision (P x)} x l :
  (forall y, P x -> P y -> cmp x y <= 0) ->
  filter P (sort_insert cmp x l) = filter P (x :: l).
Proof.
  intros HP. induction l as [|y l IH]; simpl; [done|].
  destruct (Z.leb_spec (cmp x y) 0) as [Hle|Hgt]; [done|].
  rewrite (filter_cons _ y), IH, !(filter_cons _ x), (filter_cons _ y).
  destruct (decide (P x)) as [Hx|]; [|done].
  destruct (decide (P y)) as [Hy|]; [|done].
  specialize (HP y Hx Hy). lia.
Qed.

Lemma filter_sort_elements (P : A -> Prop) `{!forall x, Decision (P x)} l :
  (forall x y, P x -> P y -> cmp x y <= 0) ->
  filter P (sort_elements cmp l) = filter P l.
Proof.
  intros HP. induction l as [|x l IH]; simpl; [done|].
  rewrite filter_sort_insert by eauto.
  by rewrite !(filter_cons _ x), IH.
Qed.

Context `{!ConsistentComparator cmp}.

Lemma sort_insert_Sorted x l :
  Sorted (precedes cmp) l -> Sorted (precedes cmp) (sort_insert cmp x l).
Proof.
  induction 1 as [|y l Hl IH Hy]; simpl.
  - repeat constructor.
  - destruct (Z.leb_spec (cmp x y) 0) as [Hle|Hgt].
    + repeat constructor; done.
    + constructor; [done|].
      assert (Hyx : precedes cmp y x).
      { apply (comparator_gt_le cmp). lia. }
      destruct Hy as [|z l Hyz]; simpl.
      * by constructor.
      * case_match; by constructor.
Qed.

Lemma sort_elements_is_Sorted l : Sorted (precedes cmp) (sort_elements cmp l).
Proof.
  induction l as [|x l IH]; simpl; [constructor|].
  by apply sort_insert_Sorted.
Qed.

Lemma sort_elements_StronglySorted l :
  StronglySorted (precedes cmp) (sort_elements cmp l).
Proof. apply Sorted_StronglySorted; [apply _|apply sort_elements_is_Sorted]. Qed.

Lemma sort_elements_idemp l :
  sort_elements cmp (sort_elements cmp l) = sort_elements cmp l.
Proof. apply sort_elements_Sorted, sort_elements_is_Sorted. Qed.

(** Elements that tie keep the order they came in. *)
Lemma sort_elements_stable x l :
  filter (ties cmp x) (sort_elements cmp l) = filter (ties cmp x) l.
Proof.
  apply filter_sort_elements. intros y z Hy Hz.
  assert (ties cmp y z) as Hyz by (etrans; [symmetry|]; eauto).
  unfold ties in Hyz. lia.
Qed.

(** Two lists in order with the same elements in every class of ties,
    class by class in the same order, are the same list. *)
Lemma stable_sorted_unique l1 l2 :
  StronglySorted (precedes cmp) l1 ->
  StronglySorted (precedes cmp) l2 ->
  (forall x, filter (ties cmp x) l1 = filter (ties cmp x) l2) ->
  l1 = l2.
Proof.
  intros H1. revert l2.
  induction H1 as [|a t1 Ht1 IH Ha]; intros l2 H2 Hf.
  - destruct l2 as [|b t2]; [done|].
    specialize (Hf b). rewrite filter_nil, filter_cons_True in Hf; [done|].
    apply (comparator_refl cmp).
  - destruct H2 as [|b t2 Ht2 Hb].
    { specialize (Hf a). rewrite filter_nil, filter_cons_True in Hf; [done|].
      apply (comparator_refl cmp). }
    assert (Hba : precedes cmp b a).
    { assert (a ∈ b :: t2) as [->|Hin]%elem_of_cons.
      { eapply (list_elem_of_filter (ties cmp a)). rewrite <- Hf.
        rewrite filter_cons_True by apply (comparator_refl cmp). left. }
      - reflexivity.
      - rewrite Forall_forall in Hb. by apply Hb. }
    assert (Hab : precedes cmp a b).
    { assert (b ∈ a :: t1) as [->|Hin]%elem_of_cons.
      { eapply (list_elem_of_filter (ties cmp b)). rewrite Hf.
        rewrite filter_cons_True by apply (comparator_refl cmp). left. }
      - reflexivity.
      - rewrite Forall_forall in Ha. by apply Ha. }
    assert (Htie : ties cmp a b) by (by apply ties_iff).
    pose proof (Hf a) as Hfa.
    rewrite filter_cons_True in Hfa by apply (comparator_refl cmp).
    rewrite filter_cons_True in Hfa by done.
    injection Hfa as <- _.
    f_equal. apply IH; [done|]. intros x. specialize (Hf x).
    rewrite !(filter_cons _ a) in Hf. destruct (decide (ties cmp x a)).
    + by injection Hf.
    + done.
Qed.

(** So the result of [sort] does not depend on the algorithm: any
    arrangement of [l] that is in order and stable is [sort_elements cmp l]. *)
Lemma sort_elements_unique l l' :
  StronglySorted (precedes cmp) l' ->
  (forall x, filter (ties cmp x) l' = filter (ties cmp x) l) ->
  l' = sort_elements cmp l.
Proof.
  intros Hs Hf. apply stable_sorted_unique; [done|apply sort_elements_StronglySorted|].
  intros x. by rewrite Hf, sort_elements_stable.
Qed.

End SortFacts.

(** ** The map *)

Lemma Map_get_set_eq key value m : Map_get key (Map_set key value m) = Some value.
Proof.
  induction m as [|[k v] m IH]; simpl.
  - by rewrite decide_True.
  - destruct (decide (k = key)); simpl.
    + by rewrite decide_True.
    + by rewrite decide_False.
Qed.

Lemma Map_get_set_ne key key' value m :
  key <> key' -> Map_get key' (Map_set key value m) = Map_get key' m.
Proof.
  intros Hne. induction m as [|[k v] m IH]; simpl.
  - by rewrite decide_False.
  - destruct (decide (k = key)) as [->|]; simpl.
    + by rewrite !decide_False.
    + by rewrite IH.
Qed.

Lemma Map_keys_set key value m :
  Map_keys (Map_set key value m) =
  if decide (key ∈ Map_keys m) then Map_keys m else Map_keys m ++ [key].
Proof.
  unfold Map_keys. induction m as [|[k v] m IH].
  - simpl. destruct (decide (key ∈ [])) as [Hin|]; [by apply elem_of_nil in Hin|done].
  - simpl Map_set. destruct (decide (k = key)) as [->|Hne].
    + rewrite decide_True; [done|]. rewrite fmap_cons. left.
    + rewrite !fmap_cons, IH. cbn [fst].
      destruct (decide (key ∈ fst <$> m)) as [Hin|Hnin].
      * rewrite decide_True; [done|]. by right.
      * rewrite decide_False; [done|].
        intros [?|?]%elem_of_cons; congruence.
Qed.

Lemma Map_set_fresh key value m :
  key ∉ Map_keys m -> Map_set key value m = m ++ [(key, value)].
Proof.
  unfold Map_keys. induction m as [|[k v] m IH]; simpl; [done|].
  intros Hnin. apply not_elem_of_cons in Hnin as [Hne Hnin].
  rewrite decide_False by done. by rewrite IH.
Qed.

Lemma Map_keys_set_NoDup key value m :
  NoDup (Map_keys m) -> NoDup (Map_keys (Map_set key value m)).
Proof.
  intros Hnd. rewrite Map_keys_set. case_decide; [done|].
  apply NoDup_app. split_and!; [done| |apply NoDup_singleton].
  intros x Hx ->%list_elem_of_singleton. done.
Qed.

Lemma Map_get_Some_keys key m : is_Some (Map_get key m) <-> key ∈ Map_keys m.
Proof.
  unfold Map_keys. induction m as [|[k v] m IH]; simpl.
  - split; [by intros [? ?]|by intros ?%elem_of_nil].
  - destruct (decide (k = key)) as [->|Hne].
    + split; [left|eauto].
    + rewrite IH. split; [by right|].
      intros [?|?]%elem_of_cons; [congruence|done].
Qed.

Lemma Map_entries_of_absent key m :
  key ∉ Map_keys m -> Map_entries_of key m = [].
Proof.
  unfold Map_keys, Map_entries_of. induction m as [|[k v] m IH]; [done|].
  rewrite fmap_cons. intros [Hne Hnin]%not_elem_of_cons.
  rewrite filter_cons_False; [auto|]. simpl in *. congruence.
Qed.

(** With keys that do not repeat, a key that is present has one entry. *)
Lemma Map_entries_of_one key m :
  NoDup (Map_keys m) -> key ∈ Map_keys m ->
  exists value, Map_entries_of key m = [(key, value)] /\ Map_get key m = Some value.
Proof.
  induction m as [|[k v] m IH].
  - by intros _ ?%elem_of_nil.
  - unfold Map_keys. rewrite fmap_cons. intros [Hk Hnd]%NoDup_cons Hin.
    unfold Map_entries_of. rewrite filter_cons. simpl in *.
    destruct (decide (k = key)) as [->|Hne].
    + exists v. split; [|done]. f_equal. by apply Map_entries_of_absent.
    + apply elem_of_cons in Hin as [?|Hin]; [congruence|].
      by apply IH.
Qed.

(** ** Filling the legend map *)

Lemma forEach_setLegendEntry l s :
  foldl (fun s f => setLegendEntry f s) s l
  = (s.1 ++ (legend_entry <$> l), Map_set_each l s.2).
Proof.
  revert s. induction l as [|f l IH]; intros [calls m]; simpl.
  - by rewrite app_nil_r.
  - rewrite IH. simpl. by rewrite <- app_assoc.
Qed.

(** Last write wins: a label has the color of the last feature carrying it. *)
Lemma Map_get_set_each x l m :
  Map_get x (Map_set_each l m) =
  match last (filter (labelled x) l) with
  | Some f => Some (color (properties f))
  | None => Map_get x m
  end.
Proof.
  revert m. induction l as [|f l IH]; intros m; [done|].
  change (Map_set_each (f :: l) m)
    with (Map_set_each l (Map_set (label (properties f)) (color (properties f)) m)).
  rewrite IH, filter_cons. destruct (decide (labelled x f)) as [Hx|Hx].
  - rewrite last_cons. destruct (last (filter (labelled x) l)); [done|].
    unfold labelled in Hx. subst x. apply Map_get_set_eq.
  - destruct (last (filter (labelled x) l)); [done|].
    by apply Map_get_set_ne.
Qed.

Lemma Map_keys_set_each_NoDup l m :
  NoDup (Map_keys m) -> NoDup (Map_keys (Map_set_each l m)).
Proof.
  revert m. induction l as [|f l IH]; intros m Hnd; [done|].
  apply IH. by apply Map_keys_set_NoDup.
Qed.

Lemma Map_keys_set_each_sublist l m :
  Map_keys (Map_set_each l m) `sublist_of` Map_keys m ++ ((fun f => label (properties f)) <$> l).
Proof.
  revert m. induction l as [|f l IH]; intros m.
  - simpl. by rewrite app_nil_r.
  - change (Map_set_each (f :: l) m)
      with (Map_set_each l (Map_set (label (properties f)) (color (properties f)) m)).
    etrans; [apply IH|]. rewrite Map_keys_set, fmap_cons. case_decide.
    + apply sublist_app; [done|]. by apply sublist_cons.
    + by rewrite <- app_assoc.
Qed.

Lemma elem_of_Map_keys_set_each x l m :
  x ∈ Map_keys (Map_set_each l m) <-> x ∈ Map_keys m \/ exists f, f ∈ l /\ labelled x f.
Proof.
  revert m. induction l as [|f l IH]; intros m.
  - simpl. split; [auto|]. intros [?|(f & ?%elem_of_nil & _)]; done.
  - change (Map_set_each (f :: l) m)
      with (Map_set_each l (Map_set (label (properties f)) (color (properties f)) m)).
    rewrite IH, Map_keys_set. unfold labelled. split.
    + intros [Hin|(g & Hg & Hx)].
      * case_decide; [by left|]. apply elem_of_app in Hin as [?|Hin%list_elem_of_singleton]; [|subst x].
        -- by left.
        -- right. exists f. split; [left|done].
      * right. exists g. split; [by right|done].
    + intros [Hin|(g & [->|Hg]%elem_of_cons & Hx)].
      * left. case_decide; [done|]. apply elem_of_app. by left.
      * left. subst x. case_decide; [done|]. apply elem_of_app. right. left.
      * right. by exists g.
Qed.

(** With labels that do not repeat, every [set] appends. *)
Lemma Map_set_each_distinct l m :
  NoDup (Map_keys m ++ ((fun f => label (properties f)) <$> l)) ->
  Map_set_each l m = m ++ (legend_entry <$> l).
Proof.
  revert m. induction l as [|f l IH]; intros m Hnd.
  - simpl. by rewrite app_nil_r.
  - change (Map_set_each (f :: l) m)
      with (Map_set_each l (Map_set (label (properties f)) (color (properties f)) m)).
    rewrite fmap_cons in Hnd.
    assert (Hf : label (properties f) ∉ Map_keys m).
    { apply NoDup_app in Hnd as (_ & Hd & _). intros Hin. apply (Hd _ Hin). left. }
    rewrite Map_set_fresh by done. rewrite IH.
    + rewrite <- app_assoc. done.
    + unfold Map_keys in *. rewrite fmap_app, <- app_assoc. done.
Qed.

(** A list in order stays in order when elements are left out. *)
Lemma StronglySorted_sublist {A} (R : relation A) (l k : list A) :
  l `sublist_of` k -> StronglySorted R k -> StronglySorted R l.
Proof.
  induction 1 as [|x l k Hlk IH|x l k Hlk IH]; intros Hk.
  - done.
  - apply StronglySorted_inv in Hk as [Hk Hx]. constructor; [by apply IH|].
    rewrite Forall_forall in Hx |- *. intros y Hy. apply Hx.
    by apply (sublist_subseteq _ _ Hlk).
  - apply StronglySorted_inv in Hk as [Hk _]. by apply IH.
Qed.

(** ** Running the legend builder *)

Lemma string_app_assoc (s1 s2 s3 : string) : (s1 +:+ s2) +:+ s3 = s1 +:+ (s2 +:+ s3).
Proof.
  induction s1 as [|a s1 IH]; [done|].
  change (String a ((s1 +:+ s2) +:+ s3) = String a (s1 +:+ (s2 +:+ s3))).
  by rewrite IH.
Qed.

Lemma string_app_empty_r (s : string) : s +:+ EmptyString = s.
Proof.
  induction s as [|a s IH]; [done|].
  change (String a (s +:+ EmptyString) = String a s). by rewrite IH.
Qed.

(** The element [legend.onAdd] returns: the heading, then one item per entry
    of the map, in the iteration order of the map. *)
Lemma legend_onAdd_markup m :
  legend_onAdd m =
  {| className := "legend"; innerHTML := legend_heading +:+ legend_markup m |}.
Proof.
  unfold legend_onAdd.
  assert (forall div,
    foldl (fun div entry => append_html (legend_item entry.2 entry.1) div) div m
    = {| className := className div; innerHTML := innerHTML div +:+ legend_markup m |})
    as Hfold.
  { induction m as [|[k v] m IH]; intros [cls html]; cbn [foldl].
    - simpl. by rewrite string_app_empty_r.
    - rewrite IH. unfold append_html. cbn [className innerHTML legend_markup foldr fst snd].
      by rewrite string_app_assoc. }
  cbv zeta. by rewrite Hfold.
Qed.

Section Run.
Variable localeCompare : string -> string -> Z.

(** On a page where [data.features] is an array, the builder runs to its
    end: the array is sorted where it is, the legend map is filled from it,
    and the control is added to the page. *)
Lemma buildLegendFromData_run data p fs :
  heap p !! features data = Some fs ->
  let sorted := sort_elements (compareLabels localeCompare) fs in
  let m := Map_set_each sorted Map_new in
  let c := {| position := "bottomright"; container := legend_onAdd m |} in
  buildLegendFromData localeCompare data p =
    (Fulfilled {| sortedFeatures := features data;
                  Map_set_calls := legend_entry <$> sorted;
                  mapLegend := m;
                  sortedLegend := [];
                  legend := c |},
     add_control c (set_heap (<[features data := sorted]> (heap p)) p)).
Proof.
  intros Hfs. simpl.
  unfold buildLegendFromData, bind, Array_sort, Array_forEach, bind, Array_read.
  rewrite Hfs. simpl. rewrite lookup_insert_eq. simpl.
  rewrite forEach_setLegendEntry. done.
Qed.

(** Where it is not, the first step throws and nothing is done. *)
Lemma buildLegendFromData_no_array data p :
  heap p !! features data = None ->
  buildLegendFromData localeCompare data p = (Rejected (TypeError "not an array"), p).
Proof.
  intros Hfs. unfold buildLegendFromData, bind, Array_sort. by rewrite Hfs.
Qed.

End Run.

(** ** The legend map *)

Section LegendMap.
Variable localeCompare : string -> string -> Z.

Lemma mapLegend_NoDup l : NoDup (Map_keys (Map_set_each l Map_new)).
Proof. apply Map_keys_set_each_NoDup. constructor. Qed.

(** Features with one label are never moved past each other: the
    comparator answers zero on them. *)
Lemma sorted_same_label x fs :
  (forall a, localeCompare a a <= 0) ->
  filter (labelled x) (sort_elements (compareLabels localeCompare) fs)
  = filter (labelled x) fs.
Proof.
  intros Hrefl. apply filter_sort_elements.
  unfold labelled, compareLabels. intros f g -> ->. apply Hrefl.
Qed.

(** A label that some feature carries has exactly one entry, with the color
    of the last feature carrying it in the sorted array. *)
Lemma mapLegend_entry x l f :
  last (filter (labelled x) l) = Some f ->
  Map_entries_of x (Map_set_each l Map_new) = [(x, color (properties f))]
  /\ Map_get x (Map_set_each l Map_new) = Some (color (properties f)).
Proof.
  intros Hlast.
  assert (Hget : Map_get x (Map_set_each l Map_new) = Some (color (properties f))).
  { by rewrite Map_get_set_each, Hlast. }
  split; [|done].
  destruct (Map_entries_of_one x (Map_set_each l Map_new)) as (v & Hone & Hv).
  - apply mapLegend_NoDup.
  - apply Map_get_Some_keys. by rewrite Hget.
  - rewrite Hone. congruence.
Qed.

End LegendMap.

(** C1. Two features that share a label: the legend map holds exactly one
    entry for the label, and its color is that of the feature that stands
    later in the sorted array, which is the later one of the collection,
    since the sort is stable (the last write wins); with any number of
    features sharing the label it is the color of the last of them. For the
    collection of scenario 3, two features labelled X with colors #111 and
    #222, the map is the single entry X with color #222, and the legend shows
    that one row. *)
Theorem C1_shared_label_last_write_wins
    (localeCompare : string -> string -> Z) (data : FeatureCollection)
    (p : Page) (fs : list Feature) :
  ConsistentComparator localeCompare ->
  heap p !! features data = Some fs ->
  exists b p',
    buildLegendFromData localeCompare data p = (Fulfilled b, p')
    /\ (forall x f1 f2,
          filter (labelled x) fs = [f1; f2] ->
          (exists sorted,
              heap p' !! sortedFeatures b = Some sorted
              /\ filter (labelled x) sorted = [f1; f2])
          /\ Map_entries_of x (mapLegend b) = [(x, color (properties f2))]
          /\ Map_get x (mapLegend b) = Some (color (properties f2)))
    /\ (forall x f,
          last (filter (labelled x) fs) = Some f ->
          Map_entries_of x (mapLegend b) = [(x, color (properties f))])
    /\ (fs = features_XX ->
          mapLegend b = [("X", "#222")]
          /\ innerHTML (container (legend b))
             = legend_heading +:+ legend_item "#222" "X").
Proof.
  intros Hcmp Hfs. eexists _, _. split; [by apply buildLegendFromData_run|].
  cbn [sortedFeatures mapLegend legend container add_control set_heap heap].
  assert (Hrefl : forall a, localeCompare a a <= 0).
  { intros a. rewrite (comparator_refl localeCompare). lia. }
  split_and!.
  - intros x f1 f2 Hx.
    pose proof (sorted_same_label localeCompare x fs Hrefl) as Hst.
    rewrite Hx in Hst. split.
    + eexists. split; [apply lookup_insert_eq|done].
    + apply mapLegend_entry. by rewrite Hst.
  - intros x f Hlast. apply mapLegend_entry.
    by rewrite (sorted_same_label localeCompare x fs Hrefl).
  - intros ->. rewrite legend_onAdd_markup.
    assert (sort_elements (compareLabels localeCompare) features_XX = features_XX) as ->.
    { apply sort_elements_Sorted. unfold features_XX.
      repeat constructor. unfold precedes, compareLabels. simpl. apply Hrefl. }
    split; [done|]. simpl. by rewrite string_app_empty_r.
Qed.

Lemma C1_shared_label_last_write_wins_witness :
  exists b p',
    buildLegendFromData codeUnitCompare data0 (page_with features_XX) = (Fulfilled b, p')
    /\ Map_entries_of "X" (mapLegend b) = [("X", "#222")]
    /\ mapLegend b = [("X", "#222")].
Proof.
  destruct (C1_shared_label_last_write_wins codeUnitCompare data0
              (page_with features_XX) features_XX codeUnitCompare_consistent eq_refl)
    as (b & p' & Hrun & Htwo & _ & Hscenario).
  exists b, p'. split; [exact Hrun|]. split.
  - exact (proj1 (proj2 (Htwo "X" (point "X" "#111") (point "X" "#222") eq_refl))).
  - exact (proj1 (Hscenario eq_refl)).
Defined.

(** ** The order of the legend *)

Section LegendOrder.
Context (localeCompare : string -> string -> Z)
        `{!ConsistentComparator localeCompare}.

(** The labels of the sorted array, in array order, never decrease. *)
Lemma sorted_labels_StronglySorted fs :
  StronglySorted (precedes localeCompare)
    ((fun f => label (properties f))
       <$> sort_elements (compareLabels localeCompare) fs).
Proof.
  apply (StronglySorted_fmap _ (precedes (compareLabels localeCompare))).
  - done.
  - apply sort_elements_StronglySorted. apply _.
Qed.

(** Nor do the keys of the map filled from it, in iteration order. *)
Lemma mapLegend_keys_StronglySorted fs :
  StronglySorted (precedes localeCompare)
    (Map_keys (Map_set_each (sort_elements (compareLabels localeCompare) fs) Map_new)).
Proof.
  eapply StronglySorted_sublist; [apply Map_keys_set_each_sublist|].
  apply sorted_labels_StronglySorted.
Qed.

Lemma sort_features_BA :
  localeCompare "A" "B" < 0 ->
  sort_elements (compareLabels localeCompare) features_BA = features_AB.
Proof.
  intros HAB. pose proof (comparator_antisym (cmp := localeCompare) "B" "A") as Hanti.
  unfold features_BA, features_AB, sort_elements, compareLabels. simpl.
  destruct (Z.leb_spec (localeCompare "B" "A") 0); [lia|done].
Qed.

End LegendOrder.

(** C2. Whatever the order of the features in the collection, the rows of the
    legend overlay come in sorted label order: the element added to the map
    holds the heading and then one item per entry of the legend map in its
    iteration order, and the labels in that order never decrease under
    [localeCompare] (and none repeats). For the collection of scenario 2, B
    before A, the row of A comes before the row of B. *)
Theorem C2_legend_rows_in_sorted_order
    (localeCompare : string -> string -> Z) (data : FeatureCollection)
    (p : Page) (fs : list Feature) :
  ConsistentComparator localeCompare ->
  heap p !! features data = Some fs ->
  exists b p',
    buildLegendFromData localeCompare data p = (Fulfilled b, p')
    /\ controls p' = controls p ++ [legend b]
    /\ container (legend b)
       = {| className := "legend";
            innerHTML := legend_heading +:+ legend_markup (mapLegend b) |}
    /\ StronglySorted (precedes localeCompare) (legend_rows (mapLegend b))
    /\ NoDup (legend_rows (mapLegend b))
    /\ (localeCompare "A" "B" < 0 -> fs = features_BA ->
          legend_rows (mapLegend b) = ["A"; "B"]
          /\ innerHTML (container (legend b))
             = legend_heading +:+ legend_item "#f00" "A" +:+ legend_item "#0f0" "B").
Proof.
  intros Hcmp Hfs. eexists _, _. split; [by apply buildLegendFromData_run|].
  cbn [mapLegend legend container add_control set_heap controls].
  split_and!.
  - done.
  - apply legend_onAdd_markup.
  - by apply mapLegend_keys_StronglySorted.
  - apply mapLegend_NoDup.
  - intros HAB ->. rewrite legend_onAdd_markup, sort_features_BA by done.
    split; [done|]. simpl. by rewrite string_app_empty_r.
Qed.

Lemma C2_legend_rows_in_sorted_order_witness :
  exists b p',
    buildLegendFromData codeUnitCompare data0 (page_with features_BA) = (Fulfilled b, p')
    /\ legend_rows (mapLegend b) = ["A"; "B"].
Proof.
  destruct (C2_legend_rows_in_sorted_order codeUnitCompare data0
              (page_with features_BA) features_BA codeUnitCompare_consistent eq_refl)
    as (b & p' & Hrun & _ & _ & _ & _ & Hscenario).
  exists b, p'. split; [exact Hrun|].
  exact (proj1 (Hscenario eq_refl eq_refl)).
Defined.

(** C6. The labels handed to [mapLegend.set], call after call, never
    decrease under [localeCompare]: the calls are made for the elements of
    the sorted array in array order, and every label precedes or ties with
    every label of a later call. *)
Theorem C6_labels_fed_in_nondecreasing_order
    (localeCompare : string -> string -> Z) (data : FeatureCollection)
    (p : Page) (fs : list Feature) :
  ConsistentComparator localeCompare ->
  heap p !! features data = Some fs ->
  exists b p' sorted,
    buildLegendFromData localeCompare data p = (Fulfilled b, p')
    /\ heap p' !! sortedFeatures b = Some sorted
    /\ Map_set_calls b = legend_entry <$> sorted
    /\ length (Map_set_calls b) = length fs
    /\ StronglySorted (precedes localeCompare) (fst <$> Map_set_calls b)
    /\ Sorted (precedes localeCompare) (fst <$> Map_set_calls b).
Proof.
  intros Hcmp Hfs. eexists _, _, _. split; [by apply buildLegendFromData_run|].
  cbn [sortedFeatures Map_set_calls add_control set_heap heap].
  assert (Hs : StronglySorted (precedes localeCompare)
                 ((legend_entry <$> sort_elements (compareLabels localeCompare) fs).*1)).
  { rewrite <- list_fmap_compose. by apply sorted_labels_StronglySorted. }
  split_and!.
  - apply lookup_insert_eq.
  - done.
  - by rewrite length_fmap, sort_elements_length.
  - done.
  - by apply StronglySorted_Sorted.
Qed.

Lemma C6_labels_fed_in_nondecreasing_order_witness :
  exists b p',
    buildLegendFromData codeUnitCompare data0 (page_with features_BA) = (Fulfilled b, p')
    /\ Sorted (precedes codeUnitCompare) (fst <$> Map_set_calls b).
Proof.
  destruct (C6_labels_fed_in_nondecreasing_order codeUnitCompare data0
              (page_with features_BA) features_BA codeUnitCompare_consistent eq_refl)
    as (b & p' & sorted & Hrun & _ & _ & _ & _ & Hsorted).
  exists b, p'. split; [exact Hrun|exact Hsorted].
Defined.

(** ** Distinct labels *)

Lemma Map_get_elem_of key value m :
  NoDup (Map_keys m) -> (key, value) ∈ m -> Map_get key m = Some value.
Proof.
  induction m as [|[k v] m IH]; [by intros _ ?%elem_of_nil|].
  unfold Map_keys. rewrite fmap_cons. intros [Hk Hnd]%NoDup_cons Hin.
  simpl in *. apply elem_of_cons in Hin as [[= -> ->]|Hin].
  - by rewrite decide_True.
  - rewrite decide_False; [by apply IH|].
    intros ->. apply Hk. apply list_elem_of_fmap. by exists (key, value).
Qed.

(** C5. A collection of N features with pairwise distinct labels: the legend
    map has exactly N entries, they are the label and color pairs of the
    features, and every feature's label is mapped to that feature's color. *)
Theorem C5_distinct_labels_one_entry_each
    (localeCompare : string -> string -> Z) (data : FeatureCollection)
    (p : Page) (fs : list Feature) :
  heap p !! features data = Some fs ->
  NoDup ((fun f => label (properties f)) <$> fs) ->
  exists b p',
    buildLegendFromData localeCompare data p = (Fulfilled b, p')
    /\ Map_size (mapLegend b) = length fs
    /\ mapLegend b ≡ₚ legend_entry <$> fs
    /\ (forall f, f ∈ fs ->
          Map_get (label (properties f)) (mapLegend b) = Some (color (properties f))).
Proof.
  intros Hfs Hnd. eexists _, _. split; [by apply buildLegendFromData_run|].
  cbn [mapLegend].
  set (sorted := sort_elements (compareLabels localeCompare) fs).
  assert (Hperm : sorted ≡ₚ fs) by apply sort_elements_Permutation.
  assert (Hm : Map_set_each sorted Map_new = legend_entry <$> sorted).
  { rewrite Map_set_each_distinct; [done|]. simpl. by rewrite Hperm. }
  rewrite Hm. split_and!.
  - unfold Map_size. by rewrite length_fmap, Hperm.
  - by rewrite Hperm.
  - intros f Hf. apply Map_get_elem_of.
    + rewrite <- Hm. apply mapLegend_NoDup.
    + apply (list_elem_of_fmap_2 legend_entry). by rewrite Hperm.
Qed.

Lemma C5_distinct_labels_one_entry_each_witness :
  exists b p',
    buildLegendFromData codeUnitCompare data0 (page_with features_BA) = (Fulfilled b, p')
    /\ Map_size (mapLegend b) = 2%nat
    /\ Map_get "B" (mapLegend b) = Some "#0f0".
Proof.
  assert (Hnd : NoDup ((fun f => label (properties f)) <$> features_BA)).
  { apply (bool_decide_unpack _). vm_compute. exact I. }
  destruct (C5_distinct_labels_one_entry_each codeUnitCompare data0
              (page_with features_BA) features_BA eq_refl Hnd)
    as (b & p' & Hrun & Hsize & _ & Hget).
  exists b, p'. split; [exact Hrun|]. split; [exact Hsize|].
  apply (Hget (point "B" "#0f0")). left.
Defined.

(** ** The array after the call *)

(** C10. The builder keeps the features of [data.features] as a multiset: the
    array after the call is a rearrangement of the array before, with every
    feature as it was (label, color and position), and it stands in label
    order. No feature is added, dropped or changed. *)
Theorem C10_features_permuted_in_place
    (localeCompare : string -> string -> Z) (data : FeatureCollection)
    (p : Page) (fs : list Feature) :
  ConsistentComparator localeCompare ->
  heap p !! features data = Some fs ->
  exists b p' fs',
    buildLegendFromData localeCompare data p = (Fulfilled b, p')
    /\ heap p' !! features data = Some fs'
    /\ fs' ≡ₚ fs
    /\ length fs' = length fs
    /\ StronglySorted (precedes (compareLabels localeCompare)) fs'.
Proof.
  intros Hcmp Hfs. eexists _, _, _. split; [by apply buildLegendFromData_run|].
  cbn [add_control set_heap heap]. split_and!.
  - apply lookup_insert_eq.
  - apply sort_elements_Permutation.
  - apply sort_elements_length.
  - apply sort_elements_StronglySorted. apply _.
Qed.

Lemma C10_features_permuted_in_place_witness :
  exists b p' fs',
    buildLegendFromData codeUnitCompare data0 (page_with features_BA) = (Fulfilled b, p')
    /\ heap p' !! features data0 = Some fs'
    /\ fs' ≡ₚ features_BA.
Proof.
  destruct (C10_features_permuted_in_place codeUnitCompare data0
              (page_with features_BA) features_BA codeUnitCompare_consistent eq_refl)
    as (b & p' & fs' & Hrun & Hheap & Hperm & _).
  exists b, p', fs'. split; [exact Hrun|]. split; [exact Hheap|exact Hperm].
Defined.

(** C3 as stated fails: on the collection of scenario 2 the array
    [data.features] reads B, A before the call and A, B after it. *)
Lemma C3_input_array_changed :
  exists b p',
    buildLegendFromData codeUnitCompare data0 (page_with features_BA) = (Fulfilled b, p')
    /\ heap (page_with features_BA) !! features data0 = Some features_BA
    /\ heap p' !! features data0 = Some features_AB
    /\ heap p' !! features data0 <> heap (page_with features_BA) !! features data0.
Proof.
  eexists _, _. split; [by apply buildLegendFromData_run|].
  cbn [add_control set_heap heap]. rewrite lookup_insert_eq.
  rewrite (sort_features_BA codeUnitCompare) by done.
  split_and!; done.
Qed.

(** C3, amended. [sort] works on the array itself: [sortedFeatures] is the
    reference [data.features], and after the call the array holds its former
    features in stable label order. It reads the same as before exactly when
    the features stood in non-decreasing label order already. Every other
    array of the store is left alone. *)
Theorem C3_features_sorted_in_place
    (localeCompare : string -> string -> Z) (data : FeatureCollection)
    (p : Page) (fs : list Feature) :
  ConsistentComparator localeCompare ->
  heap p !! features data = Some fs ->
  exists b p',
    buildLegendFromData localeCompare data p = (Fulfilled b, p')
    /\ sortedFeatures b = features data
    /\ heap p' !! features data = Some (sort_elements (compareLabels localeCompare) fs)
    /\ (heap p' !! features data = heap p !! features data
        <-> Sorted (precedes (compareLabels localeCompare)) fs)
    /\ (forall a, a <> features data -> heap p' !! a = heap p !! a).
Proof.
  intros Hcmp Hfs. eexists _, _. split; [by apply buildLegendFromData_run|].
  cbn [sortedFeatures add_control set_heap heap]. rewrite lookup_insert_eq, Hfs.
  split_and!.
  - done.
  - done.
  - split.
    + intros [= Heq]. rewrite <- Heq. apply sort_elements_is_Sorted. apply _.
    + intros Hs. f_equal. by apply sort_elements_Sorted.
  - intros a Ha. by rewrite lookup_insert_ne.
Qed.

Lemma C3_features_sorted_in_place_witness :
  exists b p',
    buildLegendFromData codeUnitCompare data0 (page_with features_BA) = (Fulfilled b, p')
    /\ heap p' !! features data0
       = Some (sort_elements (compareLabels codeUnitCompare) features_BA).
Proof.
  destruct (C3_features_sorted_in_place codeUnitCompare data0
              (page_with features_BA) features_BA codeUnitCompare_consistent eq_refl)
    as (b & p' & Hrun & _ & Hheap & _).
  exists b, p'. split; [exact Hrun|exact Hheap].
Defined.

(** ** Building twice *)

(** C7. Building the legend again from the same collection gives the same
    legend map, entry for entry and in the same order: a second call on the
    page the first call left starts from a new empty map and ends with a map
    equal to the first one, and so does a call on any page where the
    collection holds the same features. *)
Theorem C7_rebuild_gives_same_legend
    (localeCompare : string -> string -> Z) (data : FeatureCollection)
    (p : Page) (fs : list Feature) :
  ConsistentComparator localeCompare ->
  heap p !! features data = Some fs ->
  exists b1 p1 b2 p2,
    buildLegendFromData localeCompare data p = (Fulfilled b1, p1)
    /\ buildLegendFromData localeCompare data p1 = (Fulfilled b2, p2)
    /\ mapLegend b2 = mapLegend b1
    /\ Map_size (mapLegend b2) = Map_size (mapLegend b1)
    /\ (forall q, heap q !! features data = Some fs ->
          exists b q',
            buildLegendFromData localeCompare data q = (Fulfilled b, q')
            /\ mapLegend b = mapLegend b1).
Proof.
  intros Hcmp Hfs. eexists _, _, _, _.
  split; [by apply buildLegendFromData_run|].
  split.
  { apply buildLegendFromData_run. cbn [add_control set_heap heap].
    apply lookup_insert_eq. }
  cbn [mapLegend]. rewrite sort_elements_idemp by apply _.
  split_and!; [done|done|].
  intros q Hq. eexists _, _. split; [by apply buildLegendFromData_run|done].
Qed.

Lemma C7_rebuild_gives_same_legend_witness :
  exists b1 p1 b2 p2,
    buildLegendFromData codeUnitCompare data0 (page_with features_XX) = (Fulfilled b1, p1)
    /\ buildLegendFromData codeUnitCompare data0 p1 = (Fulfilled b2, p2)
    /\ mapLegend b2 = mapLegend b1.
Proof.
  destruct (C7_rebuild_gives_same_legend codeUnitCompare data0
              (page_with features_XX) features_XX codeUnitCompare_consistent eq_refl)
    as (b1 & p1 & b2 & p2 & Hrun1 & Hrun2 & Hsame & _).
  exists b1, p1, b2, p2. split; [exact Hrun1|]. split; [exact Hrun2|exact Hsame].
Defined.

(** ** Line 48 *)

Section DeadCode.
Variable localeCompare : string -> string -> Z.
Variable fitBounds : list LatLng -> Z * Z -> View -> Settled View.

(** The builder with and without line 48 leave the same page and the same
    control. *)
Lemma buildLegendFromData_without_sortedLegend_eq data p :
  buildLegendFromData_without_sortedLegend localeCompare data p
  = (match (buildLegendFromData localeCompare data p).1 with
     | Fulfilled b => Fulfilled (legend b)
     | Rejected e => Rejected e
     end,
     (buildLegendFromData localeCompare data p).2).
Proof.
  unfold buildLegendFromData, buildLegendFromData_without_sortedLegend,
    bind, Array_sort, Array_forEach, bind, Array_read, Control_addTo, ret.
  destruct (heap p !! features data) as [fs|]; [|done].
  simpl. by rewrite lookup_insert_eq.
Qed.

Lemma onData_without_sortedLegend_eq data p :
  onData_without_sortedLegend localeCompare fitBounds data p
  = onData localeCompare fitBounds data p.
Proof.
  unfold onData_without_sortedLegend, onData, bind.
  destruct (L_geoJSON data 6 p) as [[layer|e] p1]; [|done].
  destruct (Layer_addTo layer p1) as [[[]|e] p2]; [|done].
  destruct (Map_fitBounds fitBounds (getBounds layer) (20, 20) p2) as [[[]|e] p3];
    [|done].
  rewrite buildLegendFromData_without_sortedLegend_eq.
  destruct (buildLegendFromData localeCompare data p3) as [[b|e] p4]; done.
Qed.

Lemma script_without_sortedLegend_eq fetch :
  script_without_sortedLegend localeCompare fitBounds fetch
  = script localeCompare fitBounds fetch.
Proof.
  unfold script_without_sortedLegend, script, Promise_then, bind.
  destruct fetch as [r|e]; [|done].
  destruct (Response_json r page_loaded) as [[data|e] p]; [|done].
  apply onData_without_sortedLegend_eq.
Qed.

End DeadCode.

(** C9. Line 48 is dead. [Array.from] receives the method [entries], not the
    result of calling it, so [sortedLegend] is the empty array whatever the
    map holds; nothing reads it; and the script without the line ends with
    the same promise outcome and the same page, legend overlay included, as
    the script with it, as does the builder alone. *)
Theorem C9_sortedLegend_is_dead
    (localeCompare : string -> string -> Z)
    (fitBounds : list LatLng -> Z * Z -> View -> Settled View)
    (data : FeatureCollection) (p : Page) (m : JsMap) (fetch : Settled Response) :
  Array_from (Map_entries_method m) = []
  /\ match buildLegendFromData localeCompare data p with
     | (Fulfilled b, _) => sortedLegend b = []
     | (Rejected _, _) => True
     end
  /\ buildLegendFromData_without_sortedLegend localeCompare data p
     = (match (buildLegendFromData localeCompare data p).1 with
        | Fulfilled b => Fulfilled (legend b)
        | Rejected e => Rejected e
        end,
        (buildLegendFromData localeCompare data p).2)
  /\ script_without_sortedLegend localeCompare fitBounds fetch
     = script localeCompare fitBounds fetch.
Proof.
  split_and!.
  - done.
  - destruct (heap p !! features data) as [fs|] eqn:Hfs.
    + by rewrite (buildLegendFromData_run localeCompare data p fs Hfs).
    + by rewrite (buildLegendFromData_no_array localeCompare data p Hfs).
  - apply buildLegendFromData_without_sortedLegend_eq.
  - apply script_without_sortedLegend_eq.
Qed.

(** Had line 48 called the method, the array would list the entries. *)
Lemma Array_from_entries_call m :
  Array_from (Map_entries_call m) = (fun entry => JsEntry entry.1 entry.2) <$> m.
Proof. done. Qed.

(** ** The promise chain *)

(** C8. When the fetch fails, by a network error (the promise of [fetch]
    rejects) or by a malformed payload (the promise of [r.json()] rejects),
    the last promise of the chain rejects with that very reason, and the
    chain has no rejection handler to catch it. The page is the one lines 1-5
    built: default view, the tile layer alone, no legend control. This holds
    for the page with a legend and for [viz/map.js]. *)
Theorem C8_fetch_failure_is_unhandled
    (localeCompare : string -> string -> Z)
    (fitBounds : list LatLng -> Z * Z -> View -> Settled View)
    (reason : JsError) :
  script localeCompare fitBounds (Rejected reason) = (Rejected reason, page_loaded)
  /\ script localeCompare fitBounds (Fulfilled {| json := Rejected reason |})
     = (Rejected reason, page_loaded)
  /\ script_viz fitBounds (Rejected reason) = (Rejected reason, page_loaded)
  /\ script_viz fitBounds (Fulfilled {| json := Rejected reason |})
     = (Rejected reason, page_loaded)
  /\ view page_loaded = default_view
  /\ layers page_loaded = [tiles]
  /\ controls page_loaded = []
  /\ heap page_loaded = ∅.
Proof. split_and!; reflexivity. Qed.

(** ** The empty collection *)

Section EmptyCollection.
Variable localeCompare : string -> string -> Z.
Variable fitBounds : list LatLng -> Z * Z -> View -> Settled View.

(** The legend of an empty map is the heading alone. *)
Lemma legend_onAdd_empty :
  legend_onAdd Map_new = {| className := "legend"; innerHTML := legend_heading |}.
Proof. done. Qed.

(** What the script does with an empty collection hangs on Leaflet: the
    handler calls [fitBounds] on the bounds of no marker before it builds
    the legend. Where that call returns, the legend is added with no row
    and the view is the one [fitBounds] returned. *)
Lemma script_empty_collection_fitBounds_returns v :
  fitBounds [] (20, 20) default_view = Fulfilled v ->
  let r := script localeCompare fitBounds (Fulfilled {| json := Fulfilled [] |}) in
  r.1 = Fulfilled tt
  /\ view r.2 = v
  /\ layers r.2 = [tiles; GeoJSON []]
  /\ controls r.2
     = [{| position := "bottomright";
           container := {| className := "legend"; innerHTML := legend_heading |} |}].
Proof.
  intros Hfit.
  unfold script, Promise_then, bind, Response_json, bind, Array_alloc, ret. simpl.
  unfold onData, bind, L_geoJSON, bind, Array_read. simpl.
  rewrite lookup_insert_eq. simpl.
  unfold Map_fitBounds. simpl. rewrite Hfit. simpl.
  unfold buildLegendFromData, bind, Array_sort. simpl.
  rewrite lookup_insert_eq. simpl.
  unfold Array_forEach, bind, Array_read. simpl.
  rewrite lookup_insert_eq. simpl. done.
Qed.

(** Where it throws, the handler stops there: the chain rejects and no
    legend is added. *)
Lemma script_empty_collection_fitBounds_throws e :
  fitBounds [] (20, 20) default_view = Rejected e ->
  let r := script localeCompare fitBounds (Fulfilled {| json := Fulfilled [] |}) in
  r.1 = Rejected e
  /\ view r.2 = default_view
  /\ layers r.2 = [tiles; GeoJSON []]
  /\ controls r.2 = [].
Proof.
  intros Hfit.
  unfold script, Promise_then, bind, Response_json, bind, Array_alloc, ret. simpl.
  unfold onData, bind, L_geoJSON, bind, Array_read. simpl.
  rewrite lookup_insert_eq. simpl.
  unfold Map_fitBounds. simpl. rewrite Hfit. simpl. done.
Qed.

End EmptyCollection.

(** * Further properties of the scripts *)

(** ** The fetch handler *)

Lemma getBounds_markers r fs :
  getBounds (GeoJSON (marker_for r <$> fs)) = geometry <$> fs.
Proof. simpl. rewrite <- list_fmap_compose. done. Qed.

Section Handler.
Variable localeCompare : string -> string -> Z.
Variable fitBounds : list LatLng -> Z * Z -> View -> Settled View.

(** The handler of the page with a legend, step by step: the markers are
    made from the array as it was fetched, then [fitBounds] decides, and only
    after it has returned is the array sorted and the legend added. *)
Lemma onData_run data p fs :
  heap p !! features data = Some fs ->
  onData localeCompare fitBounds data p =
    let layer := GeoJSON (marker_for 6 <$> fs) in
    match fitBounds (geometry <$> fs) (20, 20) (view p) with
    | Fulfilled v =>
        let sorted := sort_elements (compareLabels localeCompare) fs in
        let c := {| position := "bottomright";
                    container := legend_onAdd (Map_set_each sorted Map_new) |} in
        (Fulfilled tt,
         add_control c
           (set_heap (<[features data := sorted]> (heap p))
              (set_view v (add_layer layer p))))
    | Rejected e => (Rejected e, add_layer layer p)
    end.
Proof.
  intros Hfs. cbv zeta.
  unfold onData, bind, L_geoJSON, bind, Array_read. rewrite Hfs.
  change (ret ?x p) with (Fulfilled x, p). cbv iota beta.
  change ((fun f => onEachFeature f (pointToLayer 6 f (geometry f))) <$> fs)
    with (marker_for 6 <$> fs).
  unfold Layer_addTo, modify, Map_fitBounds. rewrite getBounds_markers.
  cbn [view add_layer].
  destruct (fitBounds (geometry <$> fs) (20, 20) (view p)) as [v|e]; [|done].
  rewrite (buildLegendFromData_run localeCompare data _ fs) by done.
  done.
Qed.

Lemma onData_viz_run data p fs :
  heap p !! features data = Some fs ->
  onData_viz fitBounds data p =
    let layer := GeoJSON (marker_for 10 <$> fs) in
    match fitBounds (geometry <$> fs) (20, 20) (view p) with
    | Fulfilled v => (Fulfilled tt, set_view v (add_layer layer p))
    | Rejected e => (Rejected e, add_layer layer p)
    end.
Proof.
  intros Hfs. cbv zeta.
  unfold onData_viz, bind, L_geoJSON, bind, Array_read. rewrite Hfs.
  change (ret ?x p) with (Fulfilled x, p). cbv iota beta.
  change ((fun f => onEachFeature f (pointToLayer 10 f (geometry f))) <$> fs)
    with (marker_for 10 <$> fs).
  unfold Layer_addTo, modify, Map_fitBounds. rewrite getBounds_markers.
  cbn [view add_layer].
  by destruct (fitBounds (geometry <$> fs) (20, 20) (view p)) as [v|e].
Qed.

(** [r.json()] puts the parsed array into the store of the loaded page. *)
Lemma Response_json_page_loaded fs :
  exists a,
    Response_json {| json := Fulfilled fs |} page_loaded
    = (Fulfilled {| features := a |}, set_heap {[ a := fs ]} page_loaded).
Proof. eexists. reflexivity. Qed.

End Handler.

(** ** The scripts, run to the end *)

Section ScriptRuns.
Variable localeCompare : string -> string -> Z.
Variable fitBounds : list LatLng -> Z * Z -> View -> Settled View.

(** The page with a legend, after a fetch that delivered the features [fs]. *)
Lemma script_run fs :
  exists a,
    script localeCompare fitBounds (Fulfilled {| json := Fulfilled fs |}) =
      let layer := GeoJSON (marker_for 6 <$> fs) in
      match fitBounds (geometry <$> fs) (20, 20) default_view with
      | Fulfilled v =>
          let sorted := sort_elements (compareLabels localeCompare) fs in
          (Fulfilled tt,
           {| heap := {[ a := sorted ]};
              view := v;
              layers := [tiles; layer];
              controls :=
                [{| position := "bottomright";
                    container := legend_onAdd (Map_set_each sorted Map_new) |}] |})
      | Rejected e =>
          (Rejected e,
           {| heap := {[ a := fs ]};
              view := default_view;
              layers := [tiles; layer];
              controls := [] |})
      end.
Proof.
  destruct (Response_json_page_loaded fs) as [a Hjson]. exists a.
  unfold script, Promise_then, bind. rewrite Hjson.
  rewrite (onData_run localeCompare fitBounds _ _ fs) by apply lookup_singleton_eq.
  cbv zeta. cbn [view set_heap page_loaded add_layer L_map_setView].
  destruct (fitBounds (geometry <$> fs) (20, 20) default_view) as [v|e]; [|done].
  unfold add_control, set_heap, set_view, add_layer. cbn.
  by rewrite insert_singleton_eq.
Qed.

(** [viz/map.js], after a fetch that delivered the features [fs]. *)
Lemma script_viz_run fs :
  exists a,
    script_viz fitBounds (Fulfilled {| json := Fulfilled fs |}) =
      let layer := GeoJSON (marker_for 10 <$> fs) in
      match fitBounds (geometry <$> fs) (20, 20) default_view with
      | Fulfilled v =>
          (Fulfilled tt,
           {| heap := {[ a := fs ]}; view := v;
              layers := [tiles; layer]; controls := [] |})
      | Rejected e =>
          (Rejected e,
           {| heap := {[ a := fs ]}; view := default_view;
              layers := [tiles; layer]; controls := [] |})
      end.
Proof.
  destruct (Response_json_page_loaded fs) as [a Hjson]. exists a.
  unfold script_viz, Promise_then, bind. rewrite Hjson.
  rewrite (onData_viz_run fitBounds _ _ fs) by apply lookup_singleton_eq.
  cbv zeta. cbn [view set_heap page_loaded add_layer L_map_setView].
  by destruct (fitBounds (geometry <$> fs) (20, 20) default_view) as [v|e].
Qed.

End ScriptRuns.

(** X1. A fetch that delivers the features [fs], with [fitBounds] returning
    the view [v]: the chain fulfils; the page shows the tile layer and one
    marker layer with one marker per feature in the order of the fetched
    array (the array is sorted only afterwards), each marker at its feature's
    position, with radius 6, fill opacity 0.8, the feature's color and label,
    and a tooltip that shows the label, not permanent, on top, offset (0, -6);
    the view is [v]; one legend control sits at the bottom right; and the
    array [data.features] ends in label order. *)
Theorem X1_script_success
    (localeCompare : string -> string -> Z)
    (fitBounds : list LatLng -> Z * Z -> View -> Settled View)
    (fs : list Feature) (v : View) :
  fitBounds (geometry <$> fs) (20, 20) default_view = Fulfilled v ->
  exists a markers c,
    let r := script localeCompare fitBounds (Fulfilled {| json := Fulfilled fs |}) in
    let sorted := sort_elements (compareLabels localeCompare) fs in
    r.1 = Fulfilled tt
    /\ view r.2 = v
    /\ layers r.2 = [tiles; GeoJSON markers]
    /\ length markers = length fs
    /\ latlng <$> markers = geometry <$> fs
    /\ marker_label <$> markers = labels fs
    /\ marker_color <$> markers = (fun f => color (properties f)) <$> fs
    /\ Forall (fun m =>
                 radius m = 6 /\ fillOpacity m = 8 # 10
                 /\ tooltip m = Some {| content := marker_label m;
                                        permanent := false;
                                        direction := "top";
                                        offset := (0, -6) |}) markers
    /\ controls r.2 = [c]
    /\ position c = "bottomright"
    /\ container c = legend_onAdd (Map_set_each sorted Map_new)
    /\ heap r.2 = {[ a := sorted ]}.
Proof.
  intros Hfit. destruct (script_run localeCompare fitBounds fs) as [a Hrun].
  rewrite Hfit in Hrun. exists a, (marker_for 6 <$> fs). eexists.
  cbv zeta in *. rewrite Hrun. cbn [fst snd view layers controls heap].
  split_and!; try done.
  - by rewrite length_fmap.
  - by rewrite <- list_fmap_compose.
  - by rewrite <- list_fmap_compose.
  - by rewrite <- list_fmap_compose.
  - apply Forall_fmap, Forall_true. intros f. done.
Qed.

Lemma X1_script_success_witness :
  exists a markers c,
    let r := script codeUnitCompare fitBounds_keep
               (Fulfilled {| json := Fulfilled features_BA |}) in
    r.1 = Fulfilled tt
    /\ layers r.2 = [tiles; GeoJSON markers]
    /\ marker_label <$> markers = ["B"; "A"]
    /\ controls r.2 = [c]
    /\ heap r.2 = {[ a := sort_elements (compareLabels codeUnitCompare) features_BA ]}.
Proof.
  destruct (X1_script_success codeUnitCompare fitBounds_keep features_BA
              default_view eq_refl)
    as (a & markers & c & Hr & _ & Hl & _ & _ & Hlab & _ & _ & Hc & _ & _ & Hh).
  exists a, markers, c. cbv zeta. split_and!; assumption.
Defined.

(** X2. When [fitBounds] throws, the handler stops at that call: the chain
    rejects with the error thrown, the marker layer is already on the map,
    the view is still the default one, no legend control is added, and the
    array [data.features] is as it was fetched, not sorted. *)
Theorem X2_script_fitBounds_throws
    (localeCompare : string -> string -> Z)
    (fitBounds : list LatLng -> Z * Z -> View -> Settled View)
    (fs : list Feature) (e : JsError) :
  fitBounds (geometry <$> fs) (20, 20) default_view = Rejected e ->
  exists a,
    let r := script localeCompare fitBounds (Fulfilled {| json := Fulfilled fs |}) in
    r.1 = Rejected e
    /\ view r.2 = default_view
    /\ layers r.2 = [tiles; GeoJSON (marker_for 6 <$> fs)]
    /\ controls r.2 = []
    /\ heap r.2 = {[ a := fs ]}.
Proof.
  intros Hfit. destruct (script_run localeCompare fitBounds fs) as [a Hrun].
  rewrite Hfit in Hrun. exists a. cbv zeta in *. by rewrite Hrun.
Qed.

Lemma X2_script_fitBounds_throws_witness :
  exists a,
    let r := script codeUnitCompare fitBounds_strict
               (Fulfilled {| json := Fulfilled [] |}) in
    r.1 = Rejected (Error "Bounds are not valid.")
    /\ controls r.2 = []
    /\ heap r.2 = {[ a := [] ]}.
Proof.
  destruct (X2_script_fitBounds_throws codeUnitCompare fitBounds_strict []
              (Error "Bounds are not valid.") eq_refl)
    as (a & Hr & _ & _ & Hc & Hh).
  exists a. cbv zeta. split_and!; assumption.
Defined.


(** X4. [viz/map.js] against the page with a legend, on the same fetch and
    the same [fitBounds]: the two chains settle alike and leave the same
    view; the layers are the same but for the marker radius, 10 in place of
    6; [viz/map.js] adds no control. *)
Theorem X4_viz_script_same_but_legend
    (localeCompare : string -> string -> Z)
    (fitBounds : list LatLng -> Z * Z -> View -> Settled View)
    (fetch : Settled Response) :
  let r := script localeCompare fitBounds fetch in
  let r' := script_viz fitBounds fetch in
  r'.1 = r.1
  /\ view r'.2 = view r.2
  /\ layers r'.2 = with_radius 10 <$> layers r.2
  /\ controls r'.2 = [].
Proof.
  cbv zeta. destruct fetch as [[[fs|e]]|e]; [|done|done].
  destruct (script_run localeCompare fitBounds fs) as [a Hrun].
  destruct (script_viz_run fitBounds fs) as [a' Hviz].
  rewrite Hrun, Hviz. cbv zeta.
  assert (Hl : GeoJSON (marker_for 10 <$> fs)
               = with_radius 10 (GeoJSON (marker_for 6 <$> fs))).
  { simpl. by rewrite <- list_fmap_compose. }
  destruct (fitBounds (geometry <$> fs) (20, 20) default_view) as [v|e];
    cbn [fst snd view layers controls]; rewrite Hl; done.
Qed.

(** X5. [viz/map.js] never reorders the fetched array: after a fetch that
    delivered [fs], whatever [fitBounds] does, the array reads [fs]. *)
Theorem X5_viz_script_keeps_array
    (fitBounds : list LatLng -> Z * Z -> View -> Settled View)
    (fs : list Feature) :
  exists a,
    heap (script_viz fitBounds (Fulfilled {| json := Fulfilled fs |})).2
    = {[ a := fs ]}
    /\ layers (script_viz fitBounds (Fulfilled {| json := Fulfilled fs |})).2
       = [tiles; GeoJSON (marker_for 10 <$> fs)].
Proof.
  destruct (script_viz_run fitBounds fs) as [a Hviz]. exists a.
  rewrite Hviz. cbv zeta.
  by destruct (fitBounds (geometry <$> fs) (20, 20) default_view).
Qed.

(** ** What the legend holds *)

Lemma length_remove_dups_le (l : list string) :
  (length (remove_dups l) <= length l)%nat.
Proof.
  induction l as [|x l IH]; simpl; [done|]. case_decide; simpl; lia.
Qed.

Lemma length_remove_dups_NoDup (l : list string) :
  length (remove_dups l) = length l <-> NoDup l.
Proof.
  induction l as [|x l IH]; simpl.
  - split; [constructor|done].
  - pose proof (length_remove_dups_le l). rewrite NoDup_cons.
    case_decide as Hx; simpl.
    + split; [lia|]. by intros [? _].
    + rewrite <- IH. split; [intros [= ?]; done|]. by intros [_ ->].
Qed.

Section LegendContent.
Variable localeCompare : string -> string -> Z.

Lemma elem_of_sorted f fs :
  f ∈ sort_elements (compareLabels localeCompare) fs <-> f ∈ fs.
Proof. by rewrite sort_elements_Permutation. Qed.

(** The keys of the legend map are the labels of the collection. *)
Lemma elem_of_mapLegend_keys x fs :
  x ∈ Map_keys (Map_set_each (sort_elements (compareLabels localeCompare) fs) Map_new)
  <-> x ∈ labels fs.
Proof.
  rewrite elem_of_Map_keys_set_each. unfold labels. rewrite list_elem_of_fmap.
  unfold labelled. split.
  - intros [Hin|(f & Hf & Hx)]; [by apply elem_of_nil in Hin|].
    exists f. split; [done|]. by apply elem_of_sorted.
  - intros (f & Hx & Hf). right. exists f. split; [|done]. by apply elem_of_sorted.
Qed.

(** Every entry of the legend map is the label and color of some feature. *)
Lemma mapLegend_entry_from_feature x c fs :
  (x, c) ∈ Map_set_each (sort_elements (compareLabels localeCompare) fs) Map_new ->
  exists f, f ∈ fs /\ label (properties f) = x /\ color (properties f) = c.
Proof.
  intros Hin. apply Map_get_elem_of in Hin; [|apply mapLegend_NoDup].
  rewrite Map_get_set_each in Hin.
  destruct (last (filter (labelled x) _)) as [f|] eqn:Hlast; [|done].
  apply last_Some_elem_of, list_elem_of_filter in Hlast as [Hx Hf].
  exists f. split; [by apply (elem_of_sorted f fs)|]. split; [done|congruence].
Qed.

(** The color a label has in the legend map is that of a feature with the
    label. *)
Lemma mapLegend_get_from_feature f fs :
  f ∈ fs ->
  exists g, g ∈ fs /\ label (properties g) = label (properties f)
    /\ Map_get (label (properties f))
         (Map_set_each (sort_elements (compareLabels localeCompare) fs) Map_new)
       = Some (color (properties g)).
Proof.
  intros Hf. rewrite Map_get_set_each.
  destruct (last (filter (labelled (label (properties f))) _)) as [g|] eqn:Hlast.
  - pose proof Hlast as Hg.
    apply last_Some_elem_of, list_elem_of_filter in Hg as [Hx Hg].
    exists g. split; [by apply (elem_of_sorted g fs)|done].
  - apply last_None in Hlast.
    assert (f ∈ filter (labelled (label (properties f)))
                  (sort_elements (compareLabels localeCompare) fs)) as Hin.
    { apply list_elem_of_filter. split; [done|]. by apply elem_of_sorted. }
    rewrite Hlast in Hin. by apply elem_of_nil in Hin.
Qed.

End LegendContent.

(** X6. The legend lists the labels of the collection, each once: a label is
    a row of the legend exactly when some feature carries it; the number of
    entries is the number of distinct labels, at most the number of features,
    and equal to it exactly when no two features share a label. This holds
    for any comparator. *)
Theorem X6_legend_rows_are_the_labels
    (localeCompare : string -> string -> Z) (data : FeatureCollection)
    (p : Page) (fs : list Feature) :
  heap p !! features data = Some fs ->
  exists b p',
    buildLegendFromData localeCompare data p = (Fulfilled b, p')
    /\ (forall x, x ∈ legend_rows (mapLegend b) <-> x ∈ labels fs)
    /\ legend_rows (mapLegend b) ≡ₚ remove_dups (labels fs)
    /\ Map_size (mapLegend b) = length (remove_dups (labels fs))
    /\ (Map_size (mapLegend b) <= length fs)%nat
    /\ (Map_size (mapLegend b) = length fs <-> NoDup (labels fs)).
Proof.
  intros Hfs. eexists _, _. split; [by apply buildLegendFromData_run|].
  cbn [mapLegend]. unfold legend_rows.
  set (m := Map_set_each (sort_elements (compareLabels localeCompare) fs) Map_new).
  assert (Hperm : Map_keys m ≡ₚ remove_dups (labels fs)).
  { apply NoDup_Permutation.
    - apply mapLegend_NoDup.
    - apply NoDup_remove_dups.
    - intros x. rewrite elem_of_remove_dups. apply elem_of_mapLegend_keys. }
  assert (Hsize : Map_size m = length (remove_dups (labels fs))).
  { unfold Map_size. rewrite <- Hperm. unfold Map_keys. by rewrite length_fmap. }
  assert (Hlen : length (labels fs) = length fs).
  { unfold labels. by rewrite length_fmap. }
  split_and!.
  - intros x. apply elem_of_mapLegend_keys.
  - done.
  - done.
  - rewrite Hsize, <- Hlen. apply length_remove_dups_le.
  - rewrite Hsize, <- Hlen. apply length_remove_dups_NoDup.
Qed.

Lemma X6_legend_rows_are_the_labels_witness :
  exists b p',
    buildLegendFromData codeUnitCompare data0 (page_with features_XX) = (Fulfilled b, p')
    /\ Map_size (mapLegend b) = length (remove_dups (labels features_XX)).
Proof.
  destruct (X6_legend_rows_are_the_labels codeUnitCompare data0
              (page_with features_XX) features_XX eq_refl)
    as (b & p' & Hrun & _ & _ & Hsize & _).
  exists b, p'. split; [exact Hrun|exact Hsize].
Defined.

(** X7. The legend takes its colors from the features: every entry of the
    legend map is the label and the color of one feature of the collection;
    and a feature whose color is shared by all features with its label has
    that color beside its label in the legend, the color its marker has on
    the map. This holds for any comparator. *)
Theorem X7_legend_colors_come_from_features
    (localeCompare : string -> string -> Z) (data : FeatureCollection)
    (p : Page) (fs : list Feature) :
  heap p !! features data = Some fs ->
  exists b p',
    buildLegendFromData localeCompare data p = (Fulfilled b, p')
    /\ (forall x c, (x, c) ∈ mapLegend b ->
          exists f, f ∈ fs /\ label (properties f) = x /\ color (properties f) = c)
    /\ (forall f, f ∈ fs ->
          (forall g, g ∈ fs -> label (properties g) = label (properties f) ->
                     color (properties g) = color (properties f)) ->
          Map_get (marker_label (marker_for 6 f)) (mapLegend b)
          = Some (marker_color (marker_for 6 f))).
Proof.
  intros Hfs. eexists _, _. split; [by apply buildLegendFromData_run|].
  cbn [mapLegend]. split.
  - intros x c. apply mapLegend_entry_from_feature.
  - intros f Hf Hsame. cbn [marker_for onEachFeature pointToLayer marker_label marker_color].
    destruct (mapLegend_get_from_feature localeCompare f fs Hf) as (g & Hg & Hl & ->).
    f_equal. by apply Hsame.
Qed.

Lemma X7_legend_colors_come_from_features_witness :
  exists b p',
    buildLegendFromData codeUnitCompare data0 (page_with features_BA) = (Fulfilled b, p')
    /\ Map_get "A" (mapLegend b) = Some "#f00".
Proof.
  destruct (X7_legend_colors_come_from_features codeUnitCompare data0
              (page_with features_BA) features_BA eq_refl)
    as (b & p' & Hrun & _ & Hget).
  exists b, p'. split; [exact Hrun|].
  apply (Hget (point "A" "#f00")).
  - right. left.
  - intros g Hg Hl. apply elem_of_cons in Hg as [->|Hg]; [discriminate Hl|].
    apply list_elem_of_singleton in Hg as ->. reflexivity.
Defined.

(** ** Calling the builder again *)

(** X8. Every call of the builder adds a control of its own: after two calls
    on the same collection the page has two more controls than before, both
    at the bottom right with the same content, the second after the first.
    The calls leave the view and the layers alone, and the second call
    leaves the store as the first one left it. *)
Theorem X8_each_call_adds_a_control
    (localeCompare : string -> string -> Z) (data : FeatureCollection)
    (p : Page) (fs : list Feature) :
  ConsistentComparator localeCompare ->
  heap p !! features data = Some fs ->
  exists b1 p1 b2 p2,
    buildLegendFromData localeCompare data p = (Fulfilled b1, p1)
    /\ buildLegendFromData localeCompare data p1 = (Fulfilled b2, p2)
    /\ controls p1 = controls p ++ [legend b1]
    /\ controls p2 = controls p ++ [legend b1; legend b2]
    /\ legend b2 = legend b1
    /\ position (legend b1) = "bottomright"
    /\ view p2 = view p
    /\ layers p2 = layers p
    /\ heap p2 = heap p1.
Proof.
  intros Hcmp Hfs. eexists _, _, _, _.
  split; [by apply buildLegendFromData_run|].
  split.
  { apply buildLegendFromData_run. cbn [add_control set_heap heap].
    apply lookup_insert_eq. }
  cbn [legend add_control set_heap heap view layers controls position].
  rewrite sort_elements_idemp by apply _.
  split_and!; try done.
  - by rewrite <- app_assoc.
  - by rewrite insert_insert_eq.
Qed.

Lemma X8_each_call_adds_a_control_witness :
  exists b1 p1 b2 p2,
    buildLegendFromData codeUnitCompare data0 (page_with features_BA) = (Fulfilled b1, p1)
    /\ buildLegendFromData codeUnitCompare data0 p1 = (Fulfilled b2, p2)
    /\ controls p2 = [legend b1; legend b2].
Proof.
  destruct (X8_each_call_adds_a_control codeUnitCompare data0
              (page_with features_BA) features_BA codeUnitCompare_consistent eq_refl)
    as (b1 & p1 & b2 & p2 & Hrun1 & Hrun2 & _ & Hc & _).
  exists b1, p1, b2, p2. split; [exact Hrun1|]. split; [exact Hrun2|exact Hc].
Defined.

(** ** The array the sort leaves *)

(** X9. The sort is stable, and that settles its result: in the array after
    the call, the features that tie with a given feature under the label
    comparison stand in the order they had before; and any arrangement in
    label order that keeps every group of tying features as it stood in the
    fetched array is this very array. *)
Theorem X9_sorted_array_stable_and_unique
    (localeCompare : string -> string -> Z) (data : FeatureCollection)
    (p : Page) (fs : list Feature) :
  ConsistentComparator localeCompare ->
  heap p !! features data = Some fs ->
  exists b p' fs',
    buildLegendFromData localeCompare data p = (Fulfilled b, p')
    /\ heap p' !! features data = Some fs'
    /\ (forall f, filter (ties (compareLabels localeCompare) f) fs'
                  = filter (ties (compareLabels localeCompare) f) fs)
    /\ (forall x, filter (labelled x) fs' = filter (labelled x) fs)
    /\ (forall l,
          StronglySorted (precedes (compareLabels localeCompare)) l ->
          (forall f, filter (ties (compareLabels localeCompare) f) l
                     = filter (ties (compareLabels localeCompare) f) fs) ->
          l = fs').
Proof.
  intros Hcmp Hfs. eexists _, _, _. split; [by apply buildLegendFromData_run|].
  cbn [add_control set_heap heap]. split_and!.
  - apply lookup_insert_eq.
  - intros f. apply sort_elements_stable. apply _.
  - intros x. apply sorted_same_label. intros a.
    rewrite (comparator_refl localeCompare). lia.
  - intros l Hl Hties. apply sort_elements_unique; [apply _|done|done].
Qed.

Lemma X9_sorted_array_stable_and_unique_witness :
  exists b p' fs',
    buildLegendFromData codeUnitCompare data0 (page_with features_XX) = (Fulfilled b, p')
    /\ heap p' !! features data0 = Some fs'
    /\ filter (labelled "X") fs' = features_XX.
Proof.
  destruct (X9_sorted_array_stable_and_unique codeUnitCompare data0
              (page_with features_XX) features_XX codeUnitCompare_consistent eq_refl)
    as (b & p' & fs' & Hrun & Hheap & _ & Hlab & _).
  exists b, p', fs'. split; [exact Hrun|]. split; [exact Hheap|].
  exact (Hlab "X").
Defined.

(** ** The order of the fetched array *)

Lemma Permutation_all_equal {A} (l l' : list A) :
  l ≡ₚ l' -> (forall y z, y ∈ l -> z ∈ l -> y = z) -> l = l'.
Proof.
  induction 1 as [|x l l' Hp IH|x y l|l l' l'' Hp1 IH1 Hp2 IH2]; intros Heq.
  - done.
  - f_equal. apply IH. intros y z Hy Hz. apply Heq; by right.
  - rewrite (Heq x y); [done|right; left|left].
  - rewrite (IH1 Heq) in Heq |- *. by apply IH2.
Qed.

Lemma Map_set_each_entries l m :
  Map_set_each l m = foldl (fun m e => Map_set e.1 e.2 m) m (legend_entry <$> l).
Proof.
  revert m. induction l as [|f l IH]; intros m; [done|].
  rewrite fmap_cons. cbn [foldl]. rewrite <- IH. done.
Qed.

Lemma codeUnitCompare_eq a b : codeUnitCompare a b = 0 -> a = b.
Proof.
  unfold codeUnitCompare. destruct (String.compare a b) eqn:Hc; [|done|done].
  intros _. by apply String.compare_eq_iff.
Qed.

Section OrderIndependence.
Context (localeCompare : string -> string -> Z)
        `{!ConsistentComparator localeCompare}.

Lemma sorted_entries_order_independent fs fs' :
  fs ≡ₚ fs' ->
  (forall f g, f ∈ fs -> g ∈ fs ->
     localeCompare (label (properties f)) (label (properties g)) = 0 ->
     label (properties f) = label (properties g)) ->
  (forall f g, f ∈ fs -> g ∈ fs ->
     label (properties f) = label (properties g) ->
     color (properties f) = color (properties g)) ->
  legend_entry <$> sort_elements (compareLabels localeCompare) fs
  = legend_entry <$> sort_elements (compareLabels localeCompare) fs'.
Proof.
  intros Hperm Hsep Hcol.
  assert (Hc : ConsistentComparator (compareEntries localeCompare)).
  { apply (comparator_on localeCompare fst). }
  assert (Hsorted : forall l,
    StronglySorted (precedes (compareEntries localeCompare))
      (legend_entry <$> sort_elements (compareLabels localeCompare) l)).
  { intros l.
    apply (StronglySorted_fmap _ (precedes (compareLabels localeCompare))); [done|].
    apply sort_elements_StronglySorted. apply _. }
  apply (stable_sorted_unique (compareEntries localeCompare)); [apply Hsorted..|].
  intros x. apply Permutation_all_equal.
  - by rewrite !sort_elements_Permutation, Hperm.
  - intros y z [Hxy Hy]%list_elem_of_filter [Hxz Hz]%list_elem_of_filter.
    apply list_elem_of_fmap in Hy as (f & -> & Hf).
    apply list_elem_of_fmap in Hz as (g & -> & Hg).
    rewrite sort_elements_Permutation in Hf, Hg.
    assert (Hfg : ties (compareEntries localeCompare) (legend_entry f) (legend_entry g)).
    { etrans; [symmetry; apply Hxy|apply Hxz]. }
    unfold legend_entry. f_equal.
    + by apply Hsep.
    + apply Hcol; [done..|]. by apply Hsep.
Qed.

End OrderIndependence.

(** X10. The legend does not depend on the order in which the features were
    fetched, as long as features that carry the same label carry the same
    color and the comparator ties only equal labels of the collection: two
    collections with the same features in different orders make
    [mapLegend.set] receive the same pairs in the same order, and give the
    same legend map and the same legend control. *)
Theorem X10_legend_independent_of_fetch_order
    (localeCompare : string -> string -> Z) (data data' : FeatureCollection)
    (p q : Page) (fs fs' : list Feature) :
  ConsistentComparator localeCompare ->
  heap p !! features data = Some fs ->
  heap q !! features data' = Some fs' ->
  fs ≡ₚ fs' ->
  (forall f g, f ∈ fs -> g ∈ fs ->
     localeCompare (label (properties f)) (label (properties g)) = 0 ->
     label (properties f) = label (properties g)) ->
  (forall f g, f ∈ fs -> g ∈ fs ->
     label (properties f) = label (properties g) ->
     color (properties f) = color (properties g)) ->
  exists b p' b' q',
    buildLegendFromData localeCompare data p = (Fulfilled b, p')
    /\ buildLegendFromData localeCompare data' q = (Fulfilled b', q')
    /\ Map_set_calls b' = Map_set_calls b
    /\ mapLegend b' = mapLegend b
    /\ legend b' = legend b.
Proof.
  intros Hcmp Hfs Hfs' Hperm Hsep Hcol. eexists _, _, _, _.
  split; [by apply buildLegendFromData_run|].
  split; [by apply buildLegendFromData_run|].
  cbn [Map_set_calls mapLegend legend].
  pose proof (sorted_entries_order_independent localeCompare fs fs' Hperm Hsep Hcol)
    as Hentries.
  rewrite !Map_set_each_entries, Hentries. done.
Qed.

Lemma X10_legend_independent_of_fetch_order_witness :
  exists b p' b' q',
    buildLegendFromData codeUnitCompare data0 (page_with features_BA) = (Fulfilled b, p')
    /\ buildLegendFromData codeUnitCompare data0 (page_with features_AB)
       = (Fulfilled b', q')
    /\ mapLegend b' = mapLegend b.
Proof.
  assert (Hperm : features_BA ≡ₚ features_AB) by apply Permutation_swap.
  assert (Hcol : forall f g, f ∈ features_BA -> g ∈ features_BA ->
            label (properties f) = label (properties g) ->
            color (properties f) = color (properties g)).
  { intros f g [->|Hf]%elem_of_cons [->|Hg]%elem_of_cons Hl; try reflexivity.
    - apply list_elem_of_singleton in Hg as ->. discriminate Hl.
    - apply list_elem_of_singleton in Hf as ->. discriminate Hl.
    - apply list_elem_of_singleton in Hf as ->.
      apply list_elem_of_singleton in Hg as ->. reflexivity. }
  destruct (X10_legend_independent_of_fetch_order codeUnitCompare data0 data0
              (page_with features_BA) (page_with features_AB)
              features_BA features_AB codeUnitCompare_consistent eq_refl eq_refl
              Hperm (fun f g _ _ => codeUnitCompare_eq _ _) Hcol)
    as (b & p' & b' & q' & Hrun & Hrun' & _ & Hmap & _).
  exists b, p', b', q'. split; [exact Hrun|]. split; [exact Hrun'|exact Hmap].
Defined.
